(** * Lowest-energy paths in a protein-folding state graph

    A shallow embedding of [src/protein.py] (class [ProteinGraph]) and of the
    script [src/protein_folding.py]: the weighted directed graph built with
    networkx, Bellman-Ford relaxation with negative-cycle detection, the
    extraction of a cycle from the predecessor map and the reconstruction of
    a path.

    Conventions of the embedding.
    - Weights and distances are Python floats.  The code is embedded twice.
      The first part takes exact arithmetic: rationals ([Q]) extended with
      [float('inf')], compared up to [Qeq]; it serves where the computation
      involves no rounding, and as the yardstick of what a graph with given
      weights contains.  Module [Float64] is the same code on IEEE 754
      binary64 numbers, with rounding, overflow, the two infinities and NaN.
    - A Python [dict] that is only read by key is a [gmap]; the adjacency
      structure of the networkx graph, whose iteration order the code
      depends on, is an insertion-ordered association list.
    - A Python call either returns, raises, or does not come back from a
      [while] loop: [outcome] has the three cases, and unbounded loops take a
      fuel argument. *)

From Stdlib Require Import QArith Lqa Lia Floats.
From stdpp Require Import base option list gmap strings finite.

Set Default Proof Using "Type*".

(** ** Outcomes of a call *)

Inductive exn : Type :=
  | ValueError
  | KeyError
  | IndexError
  | StopIteration.

Inductive outcome (A : Type) : Type :=
  | Returned (a : A)
  | Raised (e : exn)
  | OutOfFuel.
Arguments Returned {A} a.
Arguments Raised {A} e.
Arguments OutOfFuel {A}.

#[global] Instance outcome_ret : MRet outcome := fun _ a => Returned a.
#[global] Instance outcome_bind : MBind outcome := fun _ _ f m =>
  match m with
  | Returned a => f a
  | Raised e => Raised e
  | OutOfFuel => OutOfFuel
  end.

(** ** Numbers in exact arithmetic: rationals with [float('inf')] *)

Definition Qltb (x y : Q) : bool :=
  (Qnum x * QDen y <? Qnum y * QDen x)%Z.

Inductive ext : Type :=
  | Fin (q : Q)
  | PInf.

(** [d + w] for a distance [d] and a finite weight [w]. *)
Definition ext_add (d : ext) (w : Q) : ext :=
  match d with
  | Fin q => Fin (q + w)
  | PInf => PInf
  end.

(** [a < b] on floats: [inf < x] is false for every [x]. *)
Definition ext_ltb (a b : ext) : bool :=
  match a, b with
  | Fin x, Fin y => Qltb x y
  | Fin _, PInf => true
  | PInf, _ => false
  end.

Definition ext_le (a b : ext) : Prop :=
  match a, b with
  | Fin x, Fin y => (x <= y)%Q
  | _, PInf => True
  | PInf, Fin _ => False
  end.

Definition is_fin (a : ext) : Prop :=
  match a with Fin _ => True | PInf => False end.

(** ** Insertion-ordered dictionaries (the dicts of a networkx graph) *)

Section odict.
Context {K V : Type} `{EqDecision K}.

Fixpoint dict_get (k : K) (l : list (K * V)) : option V :=
  match l with
  | [] => None
  | (k', v) :: r => if decide (k = k') then Some v else dict_get k r
  end.

Definition dict_has (k : K) (l : list (K * V)) : bool :=
  match dict_get k l with Some _ => true | None => false end.

(** [l[k] = v]: a present key keeps its position, a new key goes last. *)
Fixpoint dict_set (k : K) (v : V) (l : list (K * V)) : list (K * V) :=
  match l with
  | [] => [(k, v)]
  | (k', v') :: r =>
      if decide (k = k') then (k, v) :: r else (k', v') :: dict_set k v r
  end.
End odict.

(** The graph is the same whatever the type [W] of the weights is. *)
Section digraph.
Context {node : Type} `{Countable node} {W : Type}.

Definition edge : Type := node * node * W.

(** networkx [DiGraph]: [_adj], node -> (successor -> weight).  The keys
    of [_adj] are the nodes, in the order they were first seen. *)
Definition DiGraph : Type := list (node * list (node * W)).

Definition empty_graph : DiGraph := [].

(** [G.add_edge(u, v, weight=w)] *)
Definition add_edge (u v : node) (w : W) (g : DiGraph) : DiGraph :=
  let g1 := if dict_has u g then g else g ++ [(u, [])] in
  let g2 := if dict_has v g1 then g1 else g1 ++ [(v, [])] in
  dict_set u (dict_set v w (default [] (dict_get u g2))) g2.

(** [G.add_weighted_edges_from(ebunch)] *)
Definition add_weighted_edges_from (es : list edge) (g : DiGraph) : DiGraph :=
  foldl (fun g e => let '(u, v, w) := e in add_edge u v w g) g es.

(** [G.nodes] *)
Definition nodes (g : DiGraph) : list node := g.*1.

(** [G.edges(data="weight")]: by source node, then by successor. *)
Definition edges (g : DiGraph) : list edge :=
  flat_map (fun '(u, nbrs) => map (fun '(v, w) => (u, v, w)) nbrs) g.

(** [G = nx.DiGraph(); G.add_weighted_edges_from(edges)] *)
Definition graph_of (es : list edge) : DiGraph :=
  add_weighted_edges_from es empty_graph.
End digraph.

Section graph.
Context {node : Type} `{Countable node}.
Local Abbreviation edge := (@edge node Q).
Local Abbreviation DiGraph := (@DiGraph node Q).

(** ** The distance and predecessor dictionaries *)

Abbreviation dist := (gmap node ext).
Abbreviation pred := (gmap node (option node)).

(** [m[k]] *)
Definition getitem {V : Type} (m : gmap node V) (k : node) : outcome V :=
  match m !! k with
  | Some v => Returned v
  | None => Raised KeyError
  end.

(** [m[k]] where [k] may be the value [None], which is never a key. *)
Definition getitem_opt {V : Type} (m : gmap node V) (k : option node)
  : outcome V :=
  match k with
  | Some x => getitem m x
  | None => Raised KeyError
  end.

(** [{node: x for node in nodes}] *)
Definition dict_const {V : Type} (ns : list node) (x : V) : gmap node V :=
  list_to_map ((fun n => (n, x)) <$> ns).

(** ** Loops *)

Fixpoint for_each {A S : Type} (body : S -> A -> outcome S) (l : list A)
    (s : S) : outcome S :=
  match l with
  | [] => Returned s
  | a :: r => s' ← body s a; for_each body r s'
  end.

Fixpoint for_range {S : Type} (n : nat) (body : S -> outcome S) (s : S)
  : outcome S :=
  match n with
  | O => Returned s
  | S n' => s' ← body s; for_range n' body s'
  end.

(** ** Bellman-Ford *)

(** The body of the relaxation loop for one edge. *)
Definition relax_edge (st : dist * pred) (e : edge) : outcome (dist * pred) :=
  let '(d, p) := st in
  let '(u, v, w) := e in
  du ← getitem d u;
  dv ← getitem d v;
  if ext_ltb (ext_add du w) dv
  then Returned (<[v := ext_add du w]> d, <[v := Some u]> p)
  else Returned (d, p).

Definition relax_pass (g : DiGraph) (st : dist * pred) : outcome (dist * pred) :=
  for_each relax_edge (edges g) st.

Definition init_state (g : DiGraph) (source : node) : dist * pred :=
  (<[source := Fin 0]> (dict_const (nodes g) PInf),
   dict_const (nodes g) (None : option node)).

(** Initialisation and the [len(nodes) - 1] passes. *)
Definition relaxation (g : DiGraph) (source : node) : outcome (dist * pred) :=
  for_range (length (nodes g) - 1) (relax_pass g) (init_state g source).

(** The detection loop of [ProteinGraph.bellman_ford]: stops at the first
    edge that can still be relaxed. *)
Fixpoint detect (d : dist) (l : list edge) : outcome (option node) :=
  match l with
  | [] => Returned None
  | (u, v, w) :: r =>
      du ← getitem d u;
      dv ← getitem d v;
      if ext_ltb (ext_add du w) dv then Returned (Some v) else detect d r
  end.

(** [for _ in range(n): cycle_vertex = predecessor[cycle_vertex]] *)
Fixpoint walk_back (p : pred) (n : nat) (c : option node)
  : outcome (option node) :=
  match n with
  | O => Returned c
  | S n' => c' ← getitem_opt p c; walk_back p n' c'
  end.

(** The [while True] loop that collects the edges of the cycle. *)
Fixpoint cycle_loop (fuel : nat) (p : pred) (cycle_vertex cur : option node)
    (cycle_edges : list (option node * option node))
  : outcome (list (option node * option node)) :=
  match fuel with
  | O => OutOfFuel
  | S f =>
      prev ← getitem_opt p cur;
      let cycle_edges' := cycle_edges ++ [(prev, cur)] in
      if decide (prev = cycle_vertex) then Returned cycle_edges'
      else cycle_loop f p cycle_vertex prev cycle_edges'
  end.

(** [ProteinGraph.bellman_ford] of [protein.py]. *)
Definition bellman_ford (fuel : nat) (g : DiGraph) (source : node)
  : outcome (dist * pred * list (option node * option node)) :=
  '(d, p) ← relaxation g source;
  cycle_vertex ← detect d (edges g);
  match cycle_vertex with
  | None => Returned (d, p, [])
  | Some _ =>
      c ← walk_back p (length (nodes g)) cycle_vertex;
      cycle_edges ← cycle_loop fuel p c c [];
      Returned (d, p, cycle_edges)
  end.

(** The detection loop of [bellman_ford] in [protein_folding.py]: every
    edge that can still be relaxed is reported. *)
Fixpoint relaxable_edges (d : dist) (l : list edge)
  : outcome (list (node * node)) :=
  match l with
  | [] => Returned []
  | (u, v, w) :: r =>
      du ← getitem d u;
      dv ← getitem d v;
      rest ← relaxable_edges d r;
      Returned (if ext_ltb (ext_add du w) dv then (u, v) :: rest else rest)
  end.

(** [bellman_ford] of [protein_folding.py]. *)
Definition script_bellman_ford (g : DiGraph) (source : node)
  : outcome (dist * pred * list (node * node)) :=
  '(d, p) ← relaxation g source;
  negative_cycle ← relaxable_edges d (edges g);
  Returned (d, p, negative_cycle).

(** ** Path reconstruction *)

(** [while end is not None: path.insert(0, end); end = predecessor[end]] *)
Fixpoint path_loop (fuel : nat) (p : pred) (end_ : option node)
    (path : list node) : outcome (list node) :=
  match end_ with
  | None => Returned path
  | Some e =>
      match fuel with
      | O => OutOfFuel
      | S f => nxt ← getitem p e; path_loop f p nxt (e :: path)
      end
  end.

(** [ProteinGraph.reconstruct_path]:
    [return path if path and path[0] == start else None] *)
Definition reconstruct_path (fuel : nat) (p : pred) (start : node)
    (end_ : option node) : outcome (option (list node)) :=
  path ← path_loop fuel p end_ [];
  match path with
  | x :: _ => Returned (if decide (x = start) then Some path else None)
  | [] => Returned None
  end.

(** [reconstruct_path] of [protein_folding.py]: [path[0]] without the
    emptiness guard. *)
Definition script_reconstruct_path (fuel : nat) (p : pred) (start : node)
    (end_ : option node) : outcome (option (list node)) :=
  path ← path_loop fuel p end_ [];
  match path with
  | x :: _ => Returned (if decide (x = start) then Some path else None)
  | [] => Raised IndexError
  end.

(** ** Construction of a [ProteinGraph] *)

(** [[(r[i], r[i+1], -0.5) for i in range(len(r) - 1)]] *)
Definition chain_edges (r : list node) : list edge :=
  omap (fun i => u ← r !! i; v ← r !! (i + 1)%nat; Some (u, v, - (1 # 2))%Q)
       (seq 0 (length r - 1)).

(** [build_from_pdb], given the sequence numbers of the residues that
    have a CA atom (what the Bio.PDB parser yields for the file). *)
Definition build_from_pdb (residues : list node) (g : DiGraph) : DiGraph :=
  add_weighted_edges_from (chain_edges residues) g.

(** The fields of [ProteinGraph] that the algorithms use; [pos] and
    [edge_labels] only serve the drawing. *)
Record ProteinGraph : Type := mkProteinGraph {
  G : DiGraph;
  name : string
}.

(** [ProteinGraph.__init__].  [parse] stands for reading the residues of
    a PDB file. *)
Definition init (parse : string -> list node) (edges : option (list edge))
    (pdb_file : option string) (name : string) : outcome ProteinGraph :=
  match edges with
  | Some (e :: es) =>
      Returned (mkProteinGraph (add_weighted_edges_from (e :: es) empty_graph) name)
  | _ =>
      match pdb_file with
      | Some (String c f) =>
          Returned (mkProteinGraph (build_from_pdb (parse (String c f)) empty_graph) name)
      | _ => Raised ValueError
      end
  end.
End graph.

(** ** The example graphs of the two files *)

Open Scope string_scope.
Open Scope list_scope.

Definition edges_example : list (@edge string Q) :=
  [("U", "A", -2); ("A", "B", - (3 # 2)); ("B", "C", -3); ("C", "F", -2);
   ("B", "D", 1); ("D", "E", -4); ("E", "F", 2)]%Q.

Definition neg_edges_example : list (@edge string Q) :=
  edges_example ++ [("C", "A", - (5 # 2))%Q].

Definition script_edges : list (@edge string Q) :=
  edges_example ++ [("C", "A", - (3 # 2))%Q].

Definition example_graph : DiGraph := add_weighted_edges_from edges_example empty_graph.
Definition example_n_graph : DiGraph := add_weighted_edges_from neg_edges_example empty_graph.


(** * Properties *)

(** ** Arithmetic on distances *)

Lemma Qltb_lt (x y : Q) : Qltb x y = true <-> (x < y)%Q.
Proof. unfold Qltb, Qlt. apply Z.ltb_lt. Qed.

Lemma Qltb_ge (x y : Q) : Qltb x y = false <-> (y <= x)%Q.
Proof. unfold Qltb, Qle. apply Z.ltb_ge. Qed.

Lemma ext_ltb_false_le (a b : ext) : ext_ltb a b = false <-> ext_le b a.
Proof.
  destruct a as [x|], b as [y|]; simpl; try rewrite Qltb_ge; intuition congruence.
Qed.

Lemma ext_ltb_true_fin (a b : ext) : ext_ltb a b = true -> is_fin a.
Proof. destruct a, b; simpl; intros; try discriminate; exact I. Qed.

Lemma ext_le_refl (a : ext) : ext_le a a.
Proof. destruct a; simpl; [apply Qle_refl | exact I]. Qed.

Lemma ext_le_trans (a b c : ext) : ext_le a b -> ext_le b c -> ext_le a c.
Proof.
  destruct a, b, c; simpl; intros; try tauto. eapply Qle_trans; eauto.
Qed.

Lemma ext_add_le (a b : ext) (w : Q) : ext_le a b -> ext_le (ext_add a w) (ext_add b w).
Proof. destruct a, b; simpl; intros; try tauto. lra. Qed.

Lemma ext_ltb_le (a b : ext) : ext_ltb a b = true -> ext_le a b.
Proof.
  destruct a, b; simpl; intros E; try discriminate; try exact I.
  apply Qltb_lt in E. lra.
Qed.

(** ** Ordered dictionaries *)

Section odict_facts.
Context {K V : Type} `{EqDecision K}.
Implicit Types (l : list (K * V)) (k : K) (v : V).

Lemma dict_get_elem k v l : dict_get k l = Some v -> (k, v) ∈ l.
Proof.
  induction l as [|[k' v'] r IH]; simpl; [discriminate|].
  destruct (decide (k = k')) as [->|]; intros E.
  - injection E as ->. left.
  - right. auto.
Qed.

Lemma dict_get_None k l : dict_get k l = None <-> k ∉ l.*1.
Proof.
  induction l as [|[k' v'] r IH]; simpl.
  - split; [intros _; apply not_elem_of_nil | done].
  - rewrite not_elem_of_cons. destruct (decide (k = k')); [|tauto].
    split; [discriminate | tauto].
Qed.

Lemma dict_has_true k l : dict_has k l = true <-> k ∈ l.*1.
Proof.
  unfold dict_has. destruct (dict_get k l) eqn:E.
  - split; [intros _|done]. apply dict_get_elem in E.
    apply list_elem_of_fmap. by exists (k, v).
  - apply dict_get_None in E. split; [discriminate | tauto].
Qed.

Lemma dict_get_NoDup k v l : NoDup l.*1 -> (k, v) ∈ l -> dict_get k l = Some v.
Proof.
  induction l as [|[k' v'] r IH]; simpl; intros ND E.
  - by apply elem_of_nil in E.
  - apply NoDup_cons in ND as [Hk ND]. apply elem_of_cons in E as [E|E].
    + injection E as -> ->. by rewrite decide_True.
    + rewrite decide_False; [auto|]. intros ->. apply Hk.
      apply list_elem_of_fmap. by exists (k', v).
Qed.

Lemma dict_get_set k k' v l :
  dict_get k' (dict_set k v l) = if decide (k' = k) then Some v else dict_get k' l.
Proof.
  induction l as [|[k0 v0] r IH]; simpl.
  - destruct (decide (k' = k)); done.
  - destruct (decide (k = k0)) as [->|N]; simpl.
    + destruct (decide (k' = k0)); done.
    + destruct (decide (k' = k0)) as [->|]; [by rewrite decide_False|]. done.
Qed.

Lemma dict_set_keys k v l :
  (dict_set k v l).*1 = if dict_has k l then l.*1 else l.*1 ++ [k].
Proof.
  unfold dict_has. induction l as [|[k0 v0] r IH]; csimpl; [done|].
  destruct (decide (k = k0)) as [->|N]; csimpl; [done|].
  rewrite IH. by destruct (dict_get k r).
Qed.

Lemma dict_set_elem k v k' v' l :
  (k', v') ∈ dict_set k v l -> (k' = k /\ v' = v) \/ (k', v') ∈ l.
Proof.
  induction l as [|[k0 v0] r IH]; simpl.
  - intros E. apply list_elem_of_singleton in E. injection E as -> ->. by left.
  - destruct (decide (k = k0)) as [->|N]; intros E;
      apply elem_of_cons in E as [E|E].
    + injection E as -> ->. by left.
    + right. by right.
    + right. rewrite E. left.
    + destruct (IH E) as [?|?]; [by left|]. right. by right.
Qed.

Lemma dict_set_NoDup k v l : NoDup l.*1 -> NoDup (dict_set k v l).*1.
Proof.
  intros ND. rewrite dict_set_keys. destruct (dict_has k l) eqn:E; [done|].
  apply NoDup_app. split_and!; [done| |apply NoDup_singleton].
  intros x Hx Hx'. apply list_elem_of_singleton in Hx' as ->.
  apply dict_has_true in Hx. congruence.
Qed.
End odict_facts.

(** ** The graph structure *)

Section graph_facts.
Context {node : Type} `{Countable node} {W : Type}.
Implicit Types (g : @DiGraph node W) (u v x y : node) (w : W) (e : @edge node W).

(** What networkx maintains: every node is a key once, every successor
    list has each successor once, and every successor is a node. *)
Definition wf_graph g : Prop :=
  NoDup (nodes g) /\
  forall u nbrs, (u, nbrs) ∈ g ->
    NoDup nbrs.*1 /\ forall v, v ∈ nbrs.*1 -> v ∈ nodes g.

Lemma elem_of_edges g u v w :
  (u, v, w) ∈ edges g <-> exists nbrs, (u, nbrs) ∈ g /\ (v, w) ∈ nbrs.
Proof.
  unfold edges. rewrite list_elem_of_In, in_flat_map. split.
  - intros ([u' nbrs] & Hin & Hm). apply in_map_iff in Hm as ([v' w'] & E & Hm).
    injection E as -> -> ->. exists nbrs. by rewrite !list_elem_of_In.
  - intros (nbrs & Hin & Hm). exists (u, nbrs). rewrite <- list_elem_of_In.
    split; [done|]. apply in_map_iff. exists (v, w). by rewrite <- list_elem_of_In.
Qed.

Lemma wf_empty : wf_graph (@empty_graph node W).
Proof.
  split; [apply NoDup_nil_2|]. intros u nbrs E. by apply elem_of_nil in E.
Qed.

Definition add_node u g : @DiGraph node W :=
  if dict_has u g then g else g ++ [(u, [])].

Lemma add_node_nodes u g x : x ∈ nodes (add_node u g) <-> x = u \/ x ∈ nodes g.
Proof.
  unfold add_node, nodes. destruct (dict_has u g) eqn:E.
  - apply dict_has_true in E. split; [by right|]. by intros [->|?].
  - rewrite fmap_app, elem_of_app. simpl. rewrite list_elem_of_singleton. tauto.
Qed.

Lemma wf_add_node u g : wf_graph g -> wf_graph (add_node u g).
Proof.
  intros [ND Hg]. split.
  - unfold add_node, nodes in *. destruct (dict_has u g) eqn:E; [done|].
    rewrite fmap_app. apply NoDup_app. split_and!; [done| |apply NoDup_singleton].
    intros x Hx Hx'. simpl in Hx'. apply list_elem_of_singleton in Hx' as ->.
    apply dict_has_true in Hx. congruence.
  - intros x nbrs Hin.
    assert ((x, nbrs) ∈ g \/ nbrs = []) as [Hin' | ->].
    { unfold add_node in Hin. destruct (dict_has u g); [by left|].
      apply elem_of_app in Hin as [?|Hin]; [by left|].
      apply list_elem_of_singleton in Hin. injection Hin as -> ->. by right. }
    + destruct (Hg _ _ Hin') as [ND' Hsub]. split; [done|].
      intros v Hv. apply add_node_nodes. right. eauto.
    + split; [apply NoDup_nil_2|]. intros v Hv. by apply elem_of_nil in Hv.
Qed.

Lemma add_edge_unfold u v w g :
  add_edge u v w g =
  let g2 := add_node v (add_node u g) in
  dict_set u (dict_set v w (default [] (dict_get u g2))) g2.
Proof. reflexivity. Qed.

Lemma add_edge_nodes u v w g x :
  x ∈ nodes (add_edge u v w g) <-> x = u \/ x = v \/ x ∈ nodes g.
Proof.
  rewrite add_edge_unfold. cbv zeta. unfold nodes at 1. rewrite dict_set_keys.
  assert (dict_has u (add_node v (add_node u g)) = true) as ->.
  { apply dict_has_true. apply add_node_nodes. right. apply add_node_nodes. by left. }
  fold (nodes (add_node v (add_node u g))). rewrite !add_node_nodes. tauto.
Qed.

Lemma wf_add_edge u v w g : wf_graph g -> wf_graph (add_edge u v w g).
Proof.
  intros Hwf. rewrite add_edge_unfold. cbv zeta.
  pose proof (wf_add_node v _ (wf_add_node u _ Hwf)) as [ND Hg].
  set (g2 := add_node v (add_node u g)) in *.
  assert (Hu : dict_has u g2 = true).
  { apply dict_has_true. apply add_node_nodes. right. apply add_node_nodes. by left. }
  assert (Hv : v ∈ nodes g2) by (apply add_node_nodes; by left).
  assert (Hkeys : nodes (dict_set u (dict_set v w (default [] (dict_get u g2))) g2) = nodes g2).
  { unfold nodes. by rewrite dict_set_keys, Hu. }
  split; [by rewrite Hkeys|].
  intros x nbrs Hin. rewrite Hkeys.
  apply dict_set_elem in Hin as [[-> ->]|Hin]; [|by apply (Hg _ _ Hin)].
  assert (NoDup (default [] (dict_get u g2)).*1 /\
          forall y, y ∈ (default [] (dict_get u g2)).*1 -> y ∈ nodes g2) as [ND' Hsub].
  { destruct (dict_get u g2) as [old|] eqn:E; simpl.
    - apply dict_get_elem in E. by apply Hg in E.
    - split; [apply NoDup_nil_2|]. intros y Hy. by apply elem_of_nil in Hy. }
  split; [by apply dict_set_NoDup|].
  intros y. rewrite dict_set_keys.
  destruct (dict_has v _); [by auto|].
  rewrite elem_of_app, list_elem_of_singleton. intros [? | ->]; auto.
Qed.

Lemma wf_add_weighted_edges_from es g :
  wf_graph g -> wf_graph (add_weighted_edges_from es g).
Proof.
  revert g. induction es as [|[[u v] w] es IH]; intros g Hg; simpl; [done|].
  apply IH. by apply wf_add_edge.
Qed.

Lemma wf_built es : wf_graph (add_weighted_edges_from es empty_graph).
Proof. apply wf_add_weighted_edges_from, wf_empty. Qed.

Lemma edge_endpoints g u v w :
  wf_graph g -> (u, v, w) ∈ edges g -> u ∈ nodes g /\ v ∈ nodes g.
Proof.
  intros [ND Hg] (nbrs & Hin & Hm)%elem_of_edges. split.
  - apply list_elem_of_fmap. by exists (u, nbrs).
  - apply (Hg _ _ Hin). apply list_elem_of_fmap. by exists (v, w).
Qed.

Lemma edge_weight_unique g u v w w' :
  wf_graph g -> (u, v, w) ∈ edges g -> (u, v, w') ∈ edges g -> w = w'.
Proof.
  intros [ND Hg] (n1 & Hin1 & Hm1)%elem_of_edges (n2 & Hin2 & Hm2)%elem_of_edges.
  assert (n1 = n2) as <-.
  { apply (dict_get_NoDup _ _ _ ND) in Hin1, Hin2. congruence. }
  destruct (Hg _ _ Hin1) as [ND' _].
  apply (dict_get_NoDup _ _ _ ND') in Hm1, Hm2. congruence.
Qed.
End graph_facts.

(** ** What the built graph contains *)

Section construction_facts.
Context {node : Type} `{Countable node} {W : Type}.
Implicit Types (g : @DiGraph node W) (u v x y a b : node) (w : W)
  (es : list (@edge node W)).

(** [G[u][v]["weight"]], when the edge is there. *)
Definition graph_weight g u v : option W :=
  nbrs ← dict_get u g; dict_get v nbrs.

(** The weight that the last entry for the pair [(a, b)] in an edge list
    carries. *)
Definition last_weight es a b : option W :=
  foldl (fun acc e => if decide (a = e.1.1 /\ b = e.1.2) then Some e.2 else acc)
        None es.

Lemma dict_get_snoc {V : Type} (k k' : node) (v' : V) (l : list (node * V)) :
  dict_get k (l ++ [(k', v')]) =
  match dict_get k l with
  | Some r => Some r
  | None => if decide (k = k') then Some v' else None
  end.
Proof.
  induction l as [|[k0 v0] r IH]; simpl; [done|].
  by destruct (decide (k = k0)).
Qed.

Lemma graph_weight_add_node x g a b :
  graph_weight (add_node x g) a b = graph_weight g a b.
Proof.
  unfold graph_weight, add_node. destruct (dict_has x g) eqn:E; [done|].
  rewrite dict_get_snoc. destruct (dict_get a g); [done|].
  by destruct (decide (a = x)).
Qed.

Lemma graph_weight_add_edge u v w g a b :
  graph_weight (add_edge u v w g) a b =
  if decide (a = u /\ b = v) then Some w else graph_weight g a b.
Proof.
  rewrite add_edge_unfold. cbv zeta. unfold graph_weight at 1.
  rewrite dict_get_set. destruct (decide (a = u)) as [->|Na].
  - simpl. rewrite dict_get_set. destruct (decide (b = v)) as [->|Nb].
    + by rewrite decide_True.
    + rewrite decide_False by tauto.
      rewrite <- (graph_weight_add_node u g u b), <- (graph_weight_add_node v _ u b).
      unfold graph_weight. by destruct (dict_get u (add_node v (add_node u g))).
  - rewrite decide_False by tauto.
    by rewrite <- (graph_weight_add_node u g a b), <- (graph_weight_add_node v _ a b).
Qed.

Lemma graph_weight_fold es g a b :
  graph_weight (add_weighted_edges_from es g) a b =
  foldl (fun acc e => if decide (a = e.1.1 /\ b = e.1.2) then Some e.2 else acc)
        (graph_weight g a b) es.
Proof.
  revert g. induction es as [|[[u v] w] es IH]; intros g; [done|].
  simpl. rewrite IH. by rewrite graph_weight_add_edge.
Qed.

Lemma graph_weight_edges g u v w :
  wf_graph g -> (u, v, w) ∈ edges g <-> graph_weight g u v = Some w.
Proof.
  intros [ND Hg]. rewrite elem_of_edges. unfold graph_weight. split.
  - intros (nbrs & Hin & Hm). destruct (Hg _ _ Hin) as [ND' _].
    rewrite (dict_get_NoDup _ _ _ ND Hin). simpl. by apply dict_get_NoDup.
  - destruct (dict_get u g) as [nbrs|] eqn:E; [|done]. simpl. intros Hm.
    exists nbrs. split; by apply dict_get_elem.
Qed.

Lemma nodes_fold es g x :
  x ∈ nodes (add_weighted_edges_from es g) <->
  x ∈ nodes g \/ exists u v w, (u, v, w) ∈ es /\ (x = u \/ x = v).
Proof.
  revert g. induction es as [|[[u v] w] es IH]; intros g; simpl.
  - split; [by left|]. intros [?|(? & ? & ? & E & _)]; [done|].
    by apply elem_of_nil in E.
  - rewrite IH, add_edge_nodes. split.
    + intros [[E|[E|?]]|(u' & v' & w' & Hin & Hx)].
      * right. exists u, v, w. split; [left|by left].
      * right. exists u, v, w. split; [left|by right].
      * by left.
      * right. exists u', v', w'. split; [by right|done].
    + intros [?|(u' & v' & w' & Hin & Hx)]; [tauto|].
      apply elem_of_cons in Hin as [[= -> -> ->]|Hin]; [tauto|].
      right. by exists u', v', w'.
Qed.

(** The graph that [add_weighted_edges_from] builds from an edge list, as
    [ProteinGraph.__init__] and the script do: its nodes are the endpoints of
    the listed edges, each once; every edge joins two nodes; an ordered pair
    has at most one edge, and its weight is the one of the last entry for
    the pair in the list ("last write wins"). *)
Theorem graph_of_contents es :
  NoDup (nodes (graph_of es)) /\
  (forall x, x ∈ nodes (graph_of es) <->
     exists u v w, (u, v, w) ∈ es /\ (x = u \/ x = v)) /\
  (forall u v w, (u, v, w) ∈ edges (graph_of es) <->
     last_weight es u v = Some w) /\
  (forall u v w w', (u, v, w) ∈ edges (graph_of es) ->
     (u, v, w') ∈ edges (graph_of es) -> w = w').
Proof.
  pose proof (wf_built es) as Hwf. fold (graph_of es) in Hwf. split_and!.
  - apply Hwf.
  - intros x. unfold graph_of. rewrite nodes_fold. split; [|by right].
    intros [Hx|?]; [|done]. by apply elem_of_nil in Hx.
  - intros u v w. rewrite (graph_weight_edges _ _ _ _ Hwf).
    unfold graph_of. by rewrite graph_weight_fold.
  - intros u v w w'. by apply edge_weight_unique.
Qed.

End construction_facts.

(** ** Walks and their weights *)

Section walks.
Context {node : Type} `{Countable node} {W : Type}.
Implicit Types (g : @DiGraph node W) (u v x y z : node) (w : W)
  (e : @edge node W) (P C : list (@edge node W)).

(** [walk g x P y]: [P] is a sequence of consecutive edges of [g] leading
    from [x] to [y]. *)
Inductive walk g : node -> list (@edge node W) -> node -> Prop :=
  | walk_nil x : walk g x [] x
  | walk_cons x y z w P :
      (x, y, w) ∈ edges g -> walk g y P z -> walk g x ((x, y, w) :: P) z.

Definition targets (P : list (@edge node W)) : list node :=
  (fun e : @edge node W => e.1.2) <$> P.

Lemma walk_app g x y z P C : walk g x P y -> walk g y C z -> walk g x (P ++ C) z.
Proof. induction 1; simpl; intros; [done|]. constructor; auto. Qed.

Lemma walk_snoc g x y z w P :
  walk g x P y -> (y, z, w) ∈ edges g -> walk g x (P ++ [(y, z, w)]) z.
Proof.
  intros HP He. eapply walk_app; [done|]. constructor; [done|constructor].
Qed.

Lemma walk_edges g x y P e : walk g x P y -> e ∈ P -> e ∈ edges g.
Proof.
  induction 1 as [|a b c w r He Hr IH]; intros Hin.
  - by apply elem_of_nil in Hin.
  - apply elem_of_cons in Hin as [->|Hin]; auto.
Qed.

(** Every edge of a walk is followed by an edge that leaves its target,
    unless the target is the end of the walk. *)
Lemma walk_next g x y P a b w :
  walk g x P y -> (a, b, w) ∈ P -> b = y \/ exists c w', (b, c, w') ∈ P.
Proof.
  induction 1 as [|x0 y0 z0 w0 r He Hr IH]; intros Hin.
  - by apply elem_of_nil in Hin.
  - apply elem_of_cons in Hin as [E|Hin].
    + injection E as -> -> ->. inversion Hr; subst; [by left|].
      right. eexists _, _. right. left.
    + destruct (IH Hin) as [?|(c & w' & ?)]; [by left|].
      right. exists c, w'. by right.
Qed.

Lemma closed_walk_next g x C a b w :
  walk g x C x -> (a, b, w) ∈ C -> exists c w', (b, c, w') ∈ C.
Proof.
  intros HC Hin. destruct (walk_next _ _ _ _ _ _ _ HC Hin) as [->|?]; [|done].
  inversion HC; subst; [by apply elem_of_nil in Hin|].
  eexists _, _. left.
Qed.

Lemma walk_targets_nodes g x y P v :
  wf_graph g -> walk g x P y -> v ∈ targets P -> v ∈ nodes g.
Proof.
  intros Hwf HP (e & -> & Hin)%list_elem_of_fmap.
  destruct e as [[a b] w]. simpl.
  pose proof (walk_edges _ _ _ _ _ HP Hin) as He.
  by destruct (edge_endpoints _ _ _ _ Hwf He).
Qed.

Lemma walk_source_node g x y P :
  wf_graph g -> walk g x P y -> P <> [] -> x ∈ nodes g.
Proof.
  intros Hwf HP HN. inversion HP as [|? ? ? ? ? He]; subst; [done|].
  by destruct (edge_endpoints _ _ _ _ Hwf He).
Qed.

(** Splitting a walk at a node it visits. *)
Lemma walk_split g x y P v :
  walk g x P y -> v ∈ x :: targets P ->
  exists A B, P = A ++ B /\ walk g x A v /\ walk g v B y /\
              (NoDup (x :: targets P) -> NoDup (v :: targets B)).
Proof.
  induction 1 as [x|x y0 z w r He Hr IH]; intros Hin.
  - apply list_elem_of_singleton in Hin as ->.
    exists [], []. split_and!; [done|constructor|constructor|done].
  - apply elem_of_cons in Hin as [->|Hin].
    + exists [], ((x, y0, w) :: r). split_and!; [done|constructor|by constructor|done].
    + destruct (IH Hin) as (A & B & -> & HA & HB & HND).
      exists ((x, y0, w) :: A), B. split_and!; [done|by constructor|done|].
      intros ND. apply HND. by apply NoDup_cons in ND as [_ ND].
Qed.
End walks.

Section weights.
Context {node : Type} `{Countable node}.
Implicit Types (g : @DiGraph node Q) (u v x y z : node) (w : Q)
  (e : @edge node Q) (P C : list (@edge node Q)).

Fixpoint weight (P : list (@edge node Q)) : Q :=
  match P with
  | [] => 0
  | (_, _, w) :: r => w + weight r
  end.

(** A cycle (closed walk) of negative total weight can be reached from [s]. *)
Definition negative_cycle_reachable g (s : node) : Prop :=
  exists x P C, walk g s P x /\ walk g x C x /\ (weight C < 0)%Q.

Lemma weight_app P C : (weight (P ++ C) == weight P + weight C)%Q.
Proof.
  induction P as [|[[a b] w] r IH]; simpl; [lra|]. rewrite IH. lra.
Qed.

Lemma negative_cycle_step g x y w :
  (x, y, w) ∈ edges g -> negative_cycle_reachable g y -> negative_cycle_reachable g x.
Proof.
  intros He (c & P & C & HP & HC & Hneg).
  exists c, ((x, y, w) :: P), C. split_and!; [by constructor|done|done].
Qed.

(** Cutting the cycles out of a walk: the result visits no node twice and,
    when no negative cycle can be reached, weighs no more. *)
Lemma simple_walk g x y P :
  walk g x P y ->
  exists P', walk g x P' y /\ NoDup (x :: targets P') /\
             (~ negative_cycle_reachable g x -> (weight P' <= weight P)%Q).
Proof.
  induction 1 as [x|x y0 z w r He Hr IH].
  - exists []. split_and!; [constructor|apply NoDup_singleton|intros; simpl; lra].
  - destruct IH as (P1 & HP1 & ND1 & Hw1).
    destruct (decide (x ∈ y0 :: targets P1)) as [Hin|Hnin].
    + destruct (walk_split _ _ _ _ _ HP1 Hin) as (A & B & -> & HA & HB & HND).
      exists B. split_and!; [done|by apply HND|].
      intros Hno. simpl.
      assert (Hy : ~ negative_cycle_reachable g y0).
      { intros Hc. apply Hno. eapply negative_cycle_step; eauto. }
      specialize (Hw1 Hy). rewrite weight_app in Hw1.
      assert (0 <= w + weight A)%Q.
      { destruct (Qlt_le_dec (w + weight A) 0) as [Hlt|]; [|done].
        exfalso. apply Hno. exists x, [], ((x, y0, w) :: A).
        split_and!; [constructor|by constructor|done]. }
      lra.
    + exists ((x, y0, w) :: P1). split_and!; [by constructor| |].
      * simpl. apply NoDup_cons. split; [done|]. exact ND1.
      * intros Hno. simpl.
        assert (Hy : ~ negative_cycle_reachable g y0).
        { intros Hc. apply Hno. eapply negative_cycle_step; eauto. }
        specialize (Hw1 Hy). lra.
Qed.

Lemma simple_walk_length g x y P :
  wf_graph g -> walk g x P y -> NoDup (x :: targets P) ->
  (length P <= length (nodes g) - 1)%nat.
Proof.
  intros Hwf HP ND. destruct P as [|e r]; [simpl; lia|].
  assert (x :: targets (e :: r) ⊆+ nodes g) as Hsub.
  { apply NoDup_submseteq; [done|]. intros v Hv.
    apply elem_of_cons in Hv as [->|Hv].
    - eapply walk_source_node; eauto.
    - eapply walk_targets_nodes; eauto. }
  apply submseteq_length in Hsub. simpl in Hsub.
  unfold targets in Hsub. rewrite length_fmap in Hsub. simpl in *. lia.
Qed.

(** A potential that is feasible on every edge bounds every walk. *)
Lemma potential_walk g (phi : node -> Q) x y P :
  walk g x P y ->
  (forall a b w, (a, b, w) ∈ P -> (phi a + w <= phi b)%Q) ->
  (phi x + weight P <= phi y)%Q.
Proof.
  induction 1 as [x|x y0 z w r He Hr IH]; intros Hphi; simpl; [lra|].
  assert (phi x + w <= phi y0)%Q by (apply Hphi; left).
  assert (phi y0 + weight r <= phi z)%Q.
  { apply IH. intros a b w' Hin. apply Hphi. by right. }
  lra.
Qed.

Lemma potential_walk_strict g (phi : node -> Q) x y P a b w :
  walk g x P y ->
  (forall a b w, (a, b, w) ∈ P -> (phi a + w <= phi b)%Q) ->
  (a, b, w) ∈ P -> (phi a + w < phi b)%Q ->
  (phi x + weight P < phi y)%Q.
Proof.
  induction 1 as [x|x y0 z w0 r He Hr IH]; intros Hphi Hin Hlt; simpl.
  - by apply elem_of_nil in Hin.
  - assert (phi x + w0 <= phi y0)%Q by (apply Hphi; left).
    assert (Hrest : forall a b w, (a, b, w) ∈ r -> (phi a + w <= phi b)%Q).
    { intros a' b' w' Hin'. apply Hphi. by right. }
    apply elem_of_cons in Hin as [E|Hin].
    + injection E as -> -> ->.
      pose proof (potential_walk _ phi _ _ _ Hr Hrest). lra.
    + specialize (IH Hrest Hin Hlt). lra.
Qed.
End weights.

(** ** Loops that keep an invariant *)

Lemma for_each_inv {A S : Type} (I : S -> Prop) (body : S -> A -> outcome S)
    (l : list A) (s : S) :
  I s ->
  (forall s a, a ∈ l -> I s -> exists s', body s a = Returned s' /\ I s') ->
  exists s', for_each body l s = Returned s' /\ I s'.
Proof.
  revert s. induction l as [|a r IH]; intros s Hs Hbody; simpl.
  - by exists s.
  - destruct (Hbody s a) as (s1 & E & Hs1); [left|done|].
    rewrite E. simpl. apply IH; [done|].
    intros s2 b Hb. apply Hbody. by right.
Qed.

Lemma for_range_inv {S : Type} (I : S -> Prop) (body : S -> outcome S)
    (n : nat) (s : S) :
  I s ->
  (forall s, I s -> exists s', body s = Returned s' /\ I s') ->
  exists s', for_range n body s = Returned s' /\ I s'.
Proof.
  revert s. induction n as [|n IH]; intros s Hs Hbody; simpl.
  - by exists s.
  - destruct (Hbody s Hs) as (s1 & E & Hs1). rewrite E. simpl. by apply IH.
Qed.

(** ** The relaxation loop *)

Section relaxation_facts.
Context {node : Type} `{Countable node}.
Implicit Types (g : @DiGraph node Q) (u v x y s : node) (w : Q)
  (e : @edge node Q) (P C : list (@edge node Q))
  (d : gmap node ext) (p : gmap node (option node)).

(** The distance of a node, [inf] when it has no entry. *)
Definition dget d v : ext := default PInf (d !! v).

(** The value of a finite distance. *)
Definition dval d v : Q :=
  match d !! v with Some (Fin q) => q | _ => 0%Q end.

(** Every edge of [C] is an edge of the predecessor map. *)
Definition pred_edges p C : Prop :=
  forall a b w, (a, b, w) ∈ C -> p !! b = Some (Some a).

Lemma dict_const_lookup {V : Type} (ns : list node) (x : V) v :
  dict_const ns x !! v = if decide (v ∈ ns) then Some x else None.
Proof.
  unfold dict_const. induction ns as [|n ns IH].
  - rewrite fmap_nil, list_to_map_nil, lookup_empty.
    destruct (decide (v ∈ [])) as [E|]; [by apply elem_of_nil in E|done].
  - rewrite fmap_cons, list_to_map_cons. destruct (decide (v = n)) as [->|N].
    + rewrite lookup_insert_eq, decide_True; [done|left].
    + rewrite lookup_insert_ne by done. rewrite IH.
      destruct (decide (v ∈ ns)).
      * rewrite decide_True; [done|by right].
      * rewrite decide_False; [done|]. rewrite not_elem_of_cons. tauto.
Qed.

Lemma relax_edge_eq d p u v w du dv :
  d !! u = Some du -> d !! v = Some dv ->
  relax_edge (d, p) (u, v, w) =
  Returned (if ext_ltb (ext_add du w) dv
            then (<[v := ext_add du w]> d, <[v := Some u]> p)
            else (d, p)).
Proof.
  intros Hu Hv. unfold relax_edge, getitem. rewrite Hu. simpl. rewrite Hv. simpl.
  by destruct (ext_ltb _ _).
Qed.

(** What holds of the two dictionaries throughout the relaxation from
    [s]. *)
Record inv g s d p : Prop := {
  inv_dom : forall v, v ∈ nodes g -> is_Some (d !! v) /\ is_Some (p !! v);
  inv_walk : forall v q, d !! v = Some (Fin q) ->
    exists P, walk g s P v /\ (weight P == q)%Q;
  inv_pred : forall v u, p !! v = Some (Some u) ->
    exists w qu qv, (u, v, w) ∈ edges g /\ d !! u = Some (Fin qu) /\
                    d !! v = Some (Fin qv) /\ (qu + w <= qv)%Q;
  inv_inf : forall v, d !! v = Some PInf -> p !! v = Some None;
  inv_keys : forall v, is_Some (p !! v) -> v ∈ nodes g;
  inv_dkeys : forall v, is_Some (d !! v) -> v = s \/ v ∈ nodes g;
  inv_cycle : forall x C, C <> [] -> walk g x C x -> pred_edges p C ->
    (weight C < 0)%Q;
  inv_source :
    (d !! s = Some (Fin 0) /\ (p !! s = None \/ p !! s = Some None)) \/
    (exists q u, d !! s = Some (Fin q) /\ (q < 0)%Q /\ p !! s = Some (Some u))
}.

Lemma inv_init g s : inv g s (init_state g s).1 (init_state g s).2.
Proof.
  unfold init_state. simpl. split.
  - intros v Hv. rewrite dict_const_lookup, decide_True by done. split; [|eauto].
    destruct (decide (v = s)) as [->|N].
    + rewrite lookup_insert_eq. eauto.
    + rewrite lookup_insert_ne by done.
      rewrite dict_const_lookup, decide_True by done. eauto.
  - intros v q E. destruct (decide (v = s)) as [->|N].
    + rewrite lookup_insert_eq in E. injection E as <-.
      exists []. split; [constructor|reflexivity].
    + rewrite lookup_insert_ne in E by done. rewrite dict_const_lookup in E.
      destruct (decide (v ∈ nodes g)); discriminate.
  - intros v u E. rewrite dict_const_lookup in E.
    destruct (decide (v ∈ nodes g)); discriminate.
  - intros v E. destruct (decide (v = s)) as [->|N].
    + rewrite lookup_insert_eq in E. discriminate.
    + rewrite lookup_insert_ne in E by done. rewrite dict_const_lookup in E.
      rewrite dict_const_lookup.
      destruct (decide (v ∈ nodes g)); [done|discriminate E].
  - intros v [? E]. rewrite dict_const_lookup in E.
    destruct (decide (v ∈ nodes g)); [done|discriminate].
  - intros v [? E]. destruct (decide (v = s)) as [->|N]; [by left|].
    rewrite lookup_insert_ne in E by done. rewrite dict_const_lookup in E.
    destruct (decide (v ∈ nodes g)); [by right|discriminate].
  - intros x C HC HW Hp. destruct C as [|[[a b] w] r]; [done|].
    assert (Hin : (a, b, w) ∈ (a, b, w) :: r) by left.
    apply Hp in Hin. rewrite dict_const_lookup in Hin.
    destruct (decide (b ∈ nodes g)); discriminate.
  - left. rewrite lookup_insert_eq. split; [done|].
    rewrite dict_const_lookup. destruct (decide (s ∈ nodes g)); auto.
Qed.
Lemma inv_fire g s d p u v w qu dv :
  wf_graph g -> inv g s d p -> (u, v, w) ∈ edges g ->
  d !! u = Some (Fin qu) -> d !! v = Some dv ->
  ext_ltb (Fin (qu + w)) dv = true ->
  inv g s (<[v := Fin (qu + w)]> d) (<[v := Some u]> p).
Proof.
  intros Hwf [Hdom Hwalk Hpred Hinf Hkeys Hdkeys Hcyc Hsrc] He Hu Hv Hlt.
  assert (Hfin : forall qv, dv = Fin qv -> (qu + w < qv)%Q).
  { intros qv ->. simpl in Hlt. by apply Qltb_lt in Hlt. }
  destruct (edge_endpoints _ _ _ _ Hwf He) as [Hun Hvn].
  split.
  - intros x Hx. destruct (Hdom x Hx) as [Hd Hp].
    destruct (decide (x = v)) as [->|N].
    + rewrite !lookup_insert_eq. eauto.
    + by rewrite !lookup_insert_ne by done.
  - intros x q E. destruct (decide (x = v)) as [->|N].
    + rewrite lookup_insert_eq in E. injection E as <-.
      destruct (Hwalk u qu Hu) as (P & HP & HwP).
      exists (P ++ [(u, v, w)]). split; [by apply walk_snoc|].
      rewrite weight_app. simpl. rewrite HwP. lra.
    + rewrite lookup_insert_ne in E by done. eauto.
  - intros x a E. destruct (decide (x = v)) as [->|N].
    + rewrite lookup_insert_eq in E. injection E as <-.
      rewrite lookup_insert_eq. destruct (decide (u = v)) as [->|Nu].
      * rewrite lookup_insert_eq. exists w, (qu + w)%Q, (qu + w)%Q.
        split_and!; [done..|].
        assert (dv = Fin qu) as -> by congruence.
        specialize (Hfin qu eq_refl). lra.
      * rewrite lookup_insert_ne by done.
        exists w, qu, (qu + w)%Q. split_and!; [done..|lra].
    + rewrite lookup_insert_ne in E by done.
      destruct (Hpred x a E) as (w' & qa & qx & He' & Ha & Hx & Hle).
      rewrite (lookup_insert_ne _ v x) by done.
      destruct (decide (a = v)) as [->|Na].
      * rewrite lookup_insert_eq. exists w', (qu + w)%Q, qx.
        split_and!; [done..|].
        assert (dv = Fin qa) as -> by congruence.
        specialize (Hfin qa eq_refl). lra.
      * rewrite lookup_insert_ne by done. exists w', qa, qx. done.
  - intros x E. destruct (decide (x = v)) as [->|N].
    + rewrite lookup_insert_eq in E. discriminate E.
    + rewrite lookup_insert_ne in E by done. rewrite lookup_insert_ne by done. auto.
  - intros x E. destruct (decide (x = v)) as [->|N]; [done|].
    rewrite lookup_insert_ne in E by done. auto.
  - intros x E. destruct (decide (x = v)) as [->|N]; [by right|].
    rewrite lookup_insert_ne in E by done. auto.
  - intros x C HC HW Hp.
    destruct (decide (v ∈ targets C)) as [Hin|Hnin].
    + apply list_elem_of_fmap in Hin as ([[a0 b0] w0] & Eb & Hin0).
      simpl in Eb. subst b0.
      assert (exists qv, d !! v = Some (Fin qv)) as [qv Hqv].
      { destruct (closed_walk_next _ _ _ _ _ _ HW Hin0) as (c & w1 & Hc).
        apply Hp in Hc. destruct (decide (c = v)) as [->|Nc].
        - rewrite lookup_insert_eq in Hc. injection Hc as ->. eauto.
        - rewrite lookup_insert_ne in Hc by done.
          destruct (Hpred _ _ Hc) as (? & qa & ? & _ & Ha & _). eauto. }
      assert (dv = Fin qv) as -> by congruence.
      specialize (Hfin qv eq_refl).
      assert (Hstep : forall a b w', (a, b, w') ∈ C ->
                (dval d a + w' <= dval d b)%Q /\ (b = v -> (dval d a + w' < dval d b)%Q)).
      { intros a b w' Hab. pose proof (walk_edges _ _ _ _ _ HW Hab) as Hedge.
        pose proof (Hp _ _ _ Hab) as Hpb. unfold dval.
        destruct (decide (b = v)) as [->|Nb].
        - rewrite lookup_insert_eq in Hpb. injection Hpb as ->.
          rewrite (edge_weight_unique _ _ _ _ _ Hwf Hedge He).
          rewrite Hu, Hqv. split; [lra|intros _; lra].
        - rewrite lookup_insert_ne in Hpb by done.
          destruct (Hpred _ _ Hpb) as (w2 & qa & qb & He2 & Ha & Hb & Hle).
          rewrite (edge_weight_unique _ _ _ _ _ Hwf Hedge He2).
          rewrite Ha, Hb. split; [done|intros ->; done]. }
      assert (dval d x + weight C < dval d x)%Q; [|lra].
      eapply potential_walk_strict; [done| |exact Hin0|].
      * intros a b w' Hab. by apply Hstep.
      * by apply (Hstep _ _ _ Hin0).
    + apply (Hcyc x C HC HW). intros a b w' Hab.
      pose proof (Hp _ _ _ Hab) as Hpb.
      rewrite lookup_insert_ne in Hpb; [done|].
      intros <-. apply Hnin. apply list_elem_of_fmap. by exists (a, v, w').
  - destruct (decide (s = v)) as [->|N].
    + right. exists (qu + w)%Q, u. rewrite !lookup_insert_eq. split_and!; [done| |done].
      destruct Hsrc as [[E _]|(q & a & E & Hq & _)].
      * assert (dv = Fin 0) as -> by congruence. specialize (Hfin 0%Q eq_refl). lra.
      * assert (dv = Fin q) as -> by congruence. specialize (Hfin q eq_refl). lra.
    + by rewrite !lookup_insert_ne by done.
Qed.

Lemma inv_relax_edge g s d p u v w :
  wf_graph g -> inv g s d p -> (u, v, w) ∈ edges g ->
  exists d' p', relax_edge (d, p) (u, v, w) = Returned (d', p') /\ inv g s d' p'.
Proof.
  intros Hwf Hinv He.
  destruct (edge_endpoints _ _ _ _ Hwf He) as [Hun Hvn].
  destruct (inv_dom _ _ _ _ Hinv u Hun) as [[du Hu] _].
  destruct (inv_dom _ _ _ _ Hinv v Hvn) as [[dv Hv] _].
  rewrite (relax_edge_eq _ _ _ _ _ _ _ Hu Hv).
  destruct (ext_ltb (ext_add du w) dv) eqn:Hlt.
  - destruct du as [qu|]; [|discriminate Hlt].
    eexists _, _. split; [done|]. simpl. eapply inv_fire; eauto.
  - by eexists _, _.
Qed.

Definition inv_state g s (st : gmap node ext * gmap node (option node)) : Prop :=
  inv g s st.1 st.2.

Lemma inv_relax_pass g s st :
  wf_graph g -> inv_state g s st ->
  exists st', relax_pass g st = Returned st' /\ inv_state g s st'.
Proof.
  intros Hwf Hinv. unfold relax_pass.
  apply (for_each_inv (inv_state g s)); [done|].
  intros [d p] [[u v] w] He Hst.
  destruct (inv_relax_edge g s d p u v w Hwf Hst He) as (d' & p' & E & Hinv').
  by exists (d', p').
Qed.

Lemma relaxation_inv g s :
  wf_graph g ->
  exists d p, relaxation g s = Returned (d, p) /\ inv g s d p.
Proof.
  intros Hwf. unfold relaxation.
  destruct (for_range_inv (inv_state g s) (relax_pass g)
              (length (nodes g) - 1) (init_state g s)) as ([d p] & E & Hinv).
  - apply inv_init.
  - intros st Hst. by apply inv_relax_pass.
  - by exists d, p.
Qed.
(** *** Distances only decrease, and a pass accounts for every edge *)

Definition dom_ok g d : Prop := forall v, v ∈ nodes g -> is_Some (d !! v).

Lemma ext_add_0 (a : ext) : ext_le a (ext_add a 0).
Proof. destruct a; simpl; [lra|exact I]. Qed.

Lemma ext_add_add (a : ext) (w w' : Q) :
  ext_le (ext_add (ext_add a w) w') (ext_add a (w + w')).
Proof. destruct a; simpl; [lra|exact I]. Qed.

Lemma dget_lookup d v a : d !! v = Some a -> dget d v = a.
Proof. unfold dget. by intros ->. Qed.

Lemma dget_insert d v a x :
  dget (<[v := a]> d) x = if decide (x = v) then a else dget d x.
Proof.
  unfold dget. destruct (decide (x = v)) as [->|N].
  - by rewrite lookup_insert_eq.
  - by rewrite lookup_insert_ne.
Qed.

Lemma relax_edge_bound g d p u v w :
  wf_graph g -> dom_ok g d -> (u, v, w) ∈ edges g ->
  exists d1 p1, relax_edge (d, p) (u, v, w) = Returned (d1, p1) /\
    dom_ok g d1 /\ (forall x, ext_le (dget d1 x) (dget d x)) /\
    ext_le (dget d1 v) (ext_add (dget d u) w).
Proof.
  intros Hwf Hdom He.
  destruct (edge_endpoints _ _ _ _ Hwf He) as [Hun Hvn].
  destruct (Hdom u Hun) as [du Hu]. destruct (Hdom v Hvn) as [dv Hv].
  rewrite (relax_edge_eq _ _ _ _ _ _ _ Hu Hv).
  rewrite (dget_lookup _ _ _ Hu).
  destruct (ext_ltb (ext_add du w) dv) eqn:Hlt.
  - eexists _, _. split; [done|]. split_and!.
    + intros x Hx. destruct (decide (x = v)) as [->|N].
      * rewrite lookup_insert_eq. eauto.
      * rewrite lookup_insert_ne by done. auto.
    + intros x. rewrite dget_insert. destruct (decide (x = v)) as [->|N].
      * rewrite (dget_lookup _ _ _ Hv). by apply ext_ltb_le.
      * apply ext_le_refl.
    + rewrite dget_insert, decide_True by done. apply ext_le_refl.
  - eexists _, _. split; [done|]. split_and!; [done|intros; apply ext_le_refl|].
    rewrite (dget_lookup _ _ _ Hv). by apply ext_ltb_false_le.
Qed.

Lemma for_each_bound g l d p :
  wf_graph g -> dom_ok g d -> (forall e, e ∈ l -> e ∈ edges g) ->
  exists d' p', for_each relax_edge l (d, p) = Returned (d', p') /\
    dom_ok g d' /\ (forall x, ext_le (dget d' x) (dget d x)) /\
    (forall u v w, (u, v, w) ∈ l -> ext_le (dget d' v) (ext_add (dget d u) w)).
Proof.
  intros Hwf. revert d p. induction l as [|[[u v] w] r IH]; intros d p Hdom Hl.
  - exists d, p. split_and!; [done..|intros; apply ext_le_refl|].
    intros ? ? ? E. by apply elem_of_nil in E.
  - destruct (relax_edge_bound g d p u v w Hwf Hdom) as (d1 & p1 & E1 & Hdom1 & Hmono1 & Hb1).
    { apply Hl. left. }
    destruct (IH d1 p1 Hdom1) as (d' & p' & E' & Hdom' & Hmono' & Hb').
    { intros e He. apply Hl. by right. }
    exists d', p'. cbn [for_each]. rewrite E1. simpl. split_and!; [done..| |].
    + intros x. eapply ext_le_trans; [apply Hmono'|apply Hmono1].
    + intros a b c Hin. apply elem_of_cons in Hin as [E|Hin].
      * injection E as -> -> ->. eapply ext_le_trans; [apply Hmono'|done].
      * eapply ext_le_trans; [by apply Hb'|]. apply ext_add_le, Hmono1.
Qed.

Lemma passes_bound g k d p :
  wf_graph g -> dom_ok g d ->
  exists d' p', for_range k (relax_pass g) (d, p) = Returned (d', p') /\
    dom_ok g d' /\ (forall x, ext_le (dget d' x) (dget d x)) /\
    (forall x P y, walk g x P y -> (length P <= k)%nat ->
       ext_le (dget d' y) (ext_add (dget d x) (weight P))).
Proof.
  intros Hwf. revert d p. induction k as [|k IH]; intros d p Hdom.
  - exists d, p. split_and!; [done..|intros; apply ext_le_refl|].
    intros x P y HP Hlen. destruct P; [|simpl in Hlen; lia].
    inversion HP; subst. apply ext_add_0.
  - destruct (for_each_bound g (edges g) d p Hwf Hdom) as (d1 & p1 & E1 & Hdom1 & Hmono1 & Hb1);
      [done|].
    destruct (IH d1 p1 Hdom1) as (d' & p' & E' & Hdom' & Hmono' & Hb').
    exists d', p'. cbn [for_range].
    change (relax_pass g (d, p)) with (for_each relax_edge (edges g) (d, p)).
    rewrite E1. simpl.
    split_and!; [done..| |].
    + intros x. eapply ext_le_trans; [apply Hmono'|apply Hmono1].
    + intros x P y HP Hlen. inversion HP as [|? y0 ? w r He Hr]; subst.
      * eapply ext_le_trans; [apply Hmono'|].
        eapply ext_le_trans; [apply Hmono1|]. apply ext_add_0.
      * simpl in Hlen. simpl.
        eapply ext_le_trans; [apply (Hb' _ _ _ Hr); lia|].
        eapply ext_le_trans; [apply ext_add_le, (Hb1 _ _ _ He)|].
        apply ext_add_add.
Qed.

Lemma init_dom_ok g s : dom_ok g (init_state g s).1.
Proof. intros v Hv. by destruct (inv_dom _ _ _ _ (inv_init g s) v Hv). Qed.

Lemma init_dget_source g s : dget (init_state g s).1 s = Fin 0.
Proof. unfold init_state, dget. simpl. by rewrite lookup_insert_eq. Qed.

(** After the passes, the distance of [y] is at most the weight of any walk
    from the source that has fewer than [|V|] edges. *)
Lemma relaxation_bound g s d p P y :
  wf_graph g -> relaxation g s = Returned (d, p) ->
  walk g s P y -> (length P <= length (nodes g) - 1)%nat ->
  ext_le (dget d y) (Fin (weight P)).
Proof.
  intros Hwf E HP Hlen. unfold relaxation in E.
  destruct (passes_bound g (length (nodes g) - 1) (init_state g s).1 (init_state g s).2
              Hwf (init_dom_ok g s)) as (d' & p' & E' & _ & _ & Hb).
  rewrite <- surjective_pairing in E'. rewrite E' in E. injection E as <- <-.
  specialize (Hb s P y HP Hlen). rewrite init_dget_source in Hb. simpl in Hb.
  eapply ext_le_trans; [exact Hb|]. simpl. lra.
Qed.

(** Every node that can be reached ends with a finite distance. *)
Lemma relaxation_reached g s d p P y :
  wf_graph g -> relaxation g s = Returned (d, p) -> walk g s P y ->
  exists q, dget d y = Fin q.
Proof.
  intros Hwf E HP.
  destruct (simple_walk _ _ _ _ HP) as (P' & HP' & ND & _).
  pose proof (relaxation_bound g s d p P' y Hwf E HP'
                (simple_walk_length _ _ _ _ Hwf HP' ND)) as Hb.
  destruct (dget d y) as [q|]; [eauto|done].
Qed.

(** When no negative cycle can be reached, no edge can be relaxed after
    the passes. *)
Lemma relaxation_settled g s d p u v w :
  wf_graph g -> relaxation g s = Returned (d, p) ->
  ~ negative_cycle_reachable g s -> (u, v, w) ∈ edges g ->
  ext_ltb (ext_add (dget d u) w) (dget d v) = false.
Proof.
  intros Hwf E Hno He.
  destruct (relaxation_inv g s Hwf) as (d0 & p0 & E0 & Hinv).
  rewrite E in E0. injection E0 as <- <-.
  destruct (ext_ltb (ext_add (dget d u) w) (dget d v)) eqn:Hlt; [exfalso|done].
  destruct (edge_endpoints _ _ _ _ Hwf He) as [Hun Hvn].
  destruct (inv_dom _ _ _ _ Hinv u Hun) as [[du Hu] _].
  rewrite (dget_lookup _ _ _ Hu) in Hlt.
  destruct du as [qu|]; [|discriminate Hlt].
  destruct (inv_walk _ _ _ _ Hinv u qu Hu) as (P & HP & HwP).
  pose proof (walk_snoc _ _ _ _ w _ HP He) as HP1.
  destruct (simple_walk _ _ _ _ HP1) as (P' & HP' & ND & Hw').
  specialize (Hw' Hno). rewrite weight_app in Hw'. simpl in Hw'.
  pose proof (relaxation_bound g s d p P' v Hwf E HP'
                (simple_walk_length _ _ _ _ Hwf HP' ND)) as Hb.
  destruct (dget d v) as [qv|]; [|done]. simpl in Hlt, Hb.
  apply Qltb_lt in Hlt. lra.
Qed.

Lemma settled_walk g d x P y :
  (forall u v w, (u, v, w) ∈ edges g ->
     ext_ltb (ext_add (dget d u) w) (dget d v) = false) ->
  walk g x P y -> ext_le (dget d y) (ext_add (dget d x) (weight P)).
Proof.
  intros Hset. induction 1 as [x|x y0 z w r He Hr IH]; simpl.
  - apply ext_add_0.
  - eapply ext_le_trans; [exact IH|].
    eapply ext_le_trans; [apply ext_add_le, ext_ltb_false_le, Hset, He|].
    apply ext_add_add.
Qed.

(** Conversely, when no edge can be relaxed after the passes, no negative
    cycle can be reached. *)
Lemma settled_no_negative_cycle g s d p :
  wf_graph g -> relaxation g s = Returned (d, p) ->
  (forall u v w, (u, v, w) ∈ edges g ->
     ext_ltb (ext_add (dget d u) w) (dget d v) = false) ->
  ~ negative_cycle_reachable g s.
Proof.
  intros Hwf E Hset (x & P & C & HP & HC & Hneg).
  destruct (relaxation_reached g s d p P x Hwf E HP) as [q Hq].
  pose proof (settled_walk g d x C x Hset HC) as Hle.
  rewrite Hq in Hle. simpl in Hle. lra.
Qed.
End relaxation_facts.

(** ** Detection and cycle extraction *)

Section detection_facts.
Context {node : Type} `{Countable node}.
Implicit Types (g : @DiGraph node Q) (u v x y s : node) (w : Q)
  (e : @edge node Q) (P C : list (@edge node Q))
  (d : gmap node ext) (p : gmap node (option node)).

(** [distance[u] + w < distance[v]] for an edge. *)
Definition relaxable d e : bool :=
  ext_ltb (ext_add (dget d e.1.1) e.2) (dget d e.1.2).

(** The target of the first edge of [l] that can be relaxed. *)
Fixpoint first_relaxable d (l : list (@edge node Q)) : option node :=
  match l with
  | [] => None
  | e :: r => if relaxable d e then Some e.1.2 else first_relaxable d r
  end.

Lemma detect_eq g d l :
  wf_graph g -> dom_ok g d -> (forall e, e ∈ l -> e ∈ edges g) ->
  detect d l = Returned (first_relaxable d l).
Proof.
  intros Hwf Hdom. induction l as [|[[u v] w] r IH]; intros Hl; [done|].
  destruct (edge_endpoints g u v w Hwf) as [Hun Hvn]; [apply Hl; left|].
  destruct (Hdom u Hun) as [du Hu]. destruct (Hdom v Hvn) as [dv Hv].
  assert (Hrel : relaxable d (u, v, w) = ext_ltb (ext_add du w) dv).
  { unfold relaxable. cbn [fst snd].
    by rewrite (dget_lookup _ _ _ Hu), (dget_lookup _ _ _ Hv). }
  cbn [detect first_relaxable]. rewrite Hrel. unfold getitem.
  rewrite Hu. simpl. rewrite Hv. simpl.
  destruct (ext_ltb (ext_add du w) dv); [done|].
  apply IH. intros e He. apply Hl. by right.
Qed.

Lemma first_relaxable_None d l :
  first_relaxable d l = None <-> forall e, e ∈ l -> relaxable d e = false.
Proof.
  induction l as [|e r IH]; simpl.
  - split; [|done]. intros _ e E. by apply elem_of_nil in E.
  - destruct (relaxable d e) eqn:Hr.
    + split; [done|]. intros Hall. rewrite Hall in Hr; [done|left].
    + rewrite IH. split.
      * intros Hall e' [->|E]%elem_of_cons; auto.
      * intros Hall e' E. apply Hall. by right.
Qed.

Lemma first_relaxable_Some d l v :
  first_relaxable d l = Some v <->
  exists l1 e l2, l = l1 ++ e :: l2 /\ e.1.2 = v /\ relaxable d e = true /\
                  forall e', e' ∈ l1 -> relaxable d e' = false.
Proof.
  induction l as [|e r IH]; simpl.
  - split; [done|]. intros (l1 & e & l2 & E & _). by destruct l1.
  - destruct (relaxable d e) eqn:Hr.
    + split.
      * intros [= <-]. exists [], e, r. split_and!; [done..|].
        intros e' E. by apply elem_of_nil in E.
      * intros (l1 & e0 & l2 & E & Hv & Hr0 & Hl1). destruct l1 as [|e1 l1].
        -- injection E as -> ->. by rewrite Hv.
        -- injection E as -> ->. rewrite Hl1 in Hr; [done|left].
    + rewrite IH. split.
      * intros (l1 & e0 & l2 & -> & Hv & Hr0 & Hl1).
        exists (e :: l1), e0, l2. split_and!; [done..|].
        intros e' [->|E]%elem_of_cons; auto.
      * intros (l1 & e0 & l2 & E & Hv & Hr0 & Hl1). destruct l1 as [|e1 l1].
        -- injection E as -> ->. congruence.
        -- injection E as -> ->. exists l1, e0, l2. split_and!; [done..|].
           intros e' E. apply Hl1. by right.
Qed.

Lemma relaxable_edges_eq g d l :
  wf_graph g -> dom_ok g d -> (forall e, e ∈ l -> e ∈ edges g) ->
  relaxable_edges d l =
  Returned ((fun e : edge => (e.1.1, e.1.2)) <$> filter (fun e => relaxable d e = true) l).
Proof.
  intros Hwf Hdom. induction l as [|[[u v] w] r IH]; intros Hl; [done|].
  destruct (edge_endpoints g u v w Hwf) as [Hun Hvn]; [apply Hl; left|].
  destruct (Hdom u Hun) as [du Hu]. destruct (Hdom v Hvn) as [dv Hv].
  cbn [relaxable_edges]. unfold getitem. rewrite Hu. simpl. rewrite Hv. simpl.
  rewrite IH by (intros e He; apply Hl; by right).
  assert (Hrel : relaxable d (u, v, w) = ext_ltb (ext_add du w) dv).
  { unfold relaxable. cbn [fst snd].
    by rewrite (dget_lookup _ _ _ Hu), (dget_lookup _ _ _ Hv). }
  rewrite filter_cons, Hrel.
  destruct (ext_ltb (ext_add du w) dv).
  - by rewrite decide_True.
  - by rewrite decide_False.
Qed.

(** The pairs of a list of edges, as the cycle loop records them. *)
Definition pairs (W : list (@edge node Q)) : list (option node * option node) :=
  (fun e : edge => (Some e.1.1, Some e.1.2)) <$> W.

Lemma cycle_loop_None fuel p c acc L :
  cycle_loop fuel p c None acc = Returned L -> False.
Proof. destruct fuel; discriminate. Qed.

(** When the loop returns, the recorded pairs are, in reverse order, a walk
    along predecessor edges from the cycle vertex to the node the loop
    started at. *)
Lemma cycle_loop_walk g s d p fuel c cur acc L :
  inv g s d p ->
  cycle_loop fuel p (Some c) (Some cur) acc = Returned L ->
  exists W, W <> [] /\ walk g c W cur /\ pred_edges p W /\
            L = acc ++ reverse (pairs W).
Proof.
  intros Hinv. revert cur acc. induction fuel as [|fuel IH]; intros cur acc E;
    [discriminate|].
  cbn [cycle_loop] in E. unfold getitem_opt, getitem in E.
  destruct (p !! cur) as [prev|] eqn:Hp; [|discriminate]. simpl in E.
  destruct prev as [pr|].
  - destruct (inv_pred _ _ _ _ Hinv cur pr Hp) as (w & qu & qv & He & _).
    destruct (decide (Some pr = Some c)) as [[= ->]|N].
    + injection E as <-. exists [(c, cur, w)]. split_and!; [done| |..|done].
      * constructor; [done|constructor].
      * intros a b w' [[= -> -> ->]|E]%elem_of_cons; [done|].
        by apply elem_of_nil in E.
    + destruct (IH _ _ E) as (W & HW & Hwalk & Hpe & ->).
      exists (W ++ [(pr, cur, w)]). split_and!.
      * by destruct W.
      * by apply walk_snoc.
      * intros a b w' [?|[= -> -> ->]%list_elem_of_singleton]%elem_of_app;
          [by eapply Hpe|done].
      * unfold pairs. rewrite fmap_app, reverse_app. simpl.
        by rewrite <- app_assoc.
  - destruct (decide (None = Some c)); [done|]. by apply cycle_loop_None in E.
Qed.
End detection_facts.

(** ** Results about [bellman_ford] *)

Section bellman_ford_facts.
Context {node : Type} `{Countable node}.
Implicit Types (g : @DiGraph node Q) (u v x y s : node) (w : Q)
  (e : @edge node Q) (P C : list (@edge node Q)) (es : list (@edge node Q))
  (d : gmap node ext) (p : gmap node (option node)).

Lemma inv_dom_ok g s d p : inv g s d p -> dom_ok g d.
Proof. intros Hinv v Hv. by destruct (inv_dom _ _ _ _ Hinv v Hv). Qed.

Lemma bellman_ford_eq g s fuel d p :
  wf_graph g -> relaxation g s = Returned (d, p) ->
  bellman_ford fuel g s =
  match first_relaxable d (edges g) with
  | None => Returned (d, p, [])
  | Some v =>
      c ← walk_back p (length (nodes g)) (Some v);
      cycle_edges ← cycle_loop fuel p c c [];
      Returned (d, p, cycle_edges)
  end.
Proof.
  intros Hwf E. destruct (relaxation_inv g s Hwf) as (d0 & p0 & E0 & Hinv).
  rewrite E in E0. injection E0 as <- <-.
  unfold bellman_ford. rewrite E. simpl.
  rewrite (detect_eq g d (edges g) Hwf (inv_dom_ok _ _ _ _ Hinv)) by done. simpl.
  by destruct (first_relaxable d (edges g)).
Qed.

Lemma script_bellman_ford_eq g s d p :
  wf_graph g -> relaxation g s = Returned (d, p) ->
  script_bellman_ford g s =
  Returned (d, p, (fun e : edge => (e.1.1, e.1.2)) <$>
                   filter (fun e => relaxable d e = true) (edges g)).
Proof.
  intros Hwf E. destruct (relaxation_inv g s Hwf) as (d0 & p0 & E0 & Hinv).
  rewrite E in E0. injection E0 as <- <-.
  unfold script_bellman_ford. rewrite E. simpl.
  by rewrite (relaxable_edges_eq g d (edges g) Hwf (inv_dom_ok _ _ _ _ Hinv)).
Qed.

Lemma source_distance_zero g s d p :
  inv g s d p -> ~ negative_cycle_reachable g s ->
  d !! s = Some (Fin 0) /\ (p !! s = None \/ p !! s = Some None).
Proof.
  intros Hinv Hno. destruct (inv_source _ _ _ _ Hinv) as [?|(q & u & E & Hq & _)];
    [done|].
  exfalso. destruct (inv_walk _ _ _ _ Hinv s q E) as (P & HP & HwP).
  apply Hno. exists s, [], P. split_and!; [constructor|done|]. by rewrite HwP.
Qed.

Lemma settled_edges g s d p :
  wf_graph g -> relaxation g s = Returned (d, p) ->
  ~ negative_cycle_reachable g s ->
  first_relaxable d (edges g) = None.
Proof.
  intros Hwf E Hno. apply first_relaxable_None. intros [[u v] w] He.
  by apply (relaxation_settled g s d p u v w Hwf E Hno).
Qed.

Lemma unsettled_edges g s d p :
  wf_graph g -> relaxation g s = Returned (d, p) ->
  negative_cycle_reachable g s ->
  exists v, first_relaxable d (edges g) = Some v.
Proof.
  intros Hwf E Hneg. destruct (first_relaxable d (edges g)) as [v|] eqn:Hf; [eauto|].
  exfalso. apply (settled_no_negative_cycle g s d p Hwf E); [|done].
  intros u v w He. by apply (proj1 (first_relaxable_None d (edges g)) Hf (u, v, w)).
Qed.

Lemma relaxable_filter_nil d (l : list (@edge node Q)) :
  first_relaxable d l = None -> filter (fun e => relaxable d e = true) l = [].
Proof.
  intros Hf. destruct (filter _ l) as [|e r] eqn:E; [done|].
  assert (e ∈ filter (fun e => relaxable d e = true) l) as Hin by (rewrite E; left).
  apply list_elem_of_filter in Hin as [Hr Hin].
  by rewrite (proj1 (first_relaxable_None d l) Hf e Hin) in Hr.
Qed.

Lemma relaxable_filter_cons d (l : list (@edge node Q)) v :
  first_relaxable d l = Some v -> filter (fun e => relaxable d e = true) l <> [].
Proof.
  intros (l1 & e & l2 & -> & _ & Hr & _)%first_relaxable_Some Hnil.
  eapply (filter_nil_not_elem_of _ _ e); [exact Hnil|exact Hr|].
  apply elem_of_app. right. left.
Qed.

(** In exact arithmetic: when no negative-weight cycle can be reached from
    the source, [bellman_ford] (of both files) returns the distances with an
    empty cycle list, the distance of the source is 0, and every edge
    [(u, v, w)] of the graph satisfies [distance[v] <= distance[u] + w].
    On floats this fails, see [rounding_breaks_acyclic]. *)
Theorem bellman_ford_acyclic es s fuel :
  ~ negative_cycle_reachable (graph_of es) s ->
  exists d p,
    bellman_ford fuel (graph_of es) s = Returned (d, p, []) /\
    script_bellman_ford (graph_of es) s = Returned (d, p, []) /\
    d !! s = Some (Fin 0) /\
    forall u v w, (u, v, w) ∈ edges (graph_of es) ->
      exists du dv, d !! u = Some du /\ d !! v = Some dv /\
                    ext_le dv (ext_add du w).
Proof.
  intros Hno. pose proof (wf_built es) as Hwf. fold (graph_of es) in Hwf.
  destruct (relaxation_inv (graph_of es) s Hwf) as (d & p & E & Hinv).
  pose proof (settled_edges _ _ _ _ Hwf E Hno) as Hset.
  exists d, p. split_and!.
  - by rewrite (bellman_ford_eq _ _ _ _ _ Hwf E), Hset.
  - by rewrite (script_bellman_ford_eq _ _ _ _ Hwf E), relaxable_filter_nil.
  - by destruct (source_distance_zero _ _ _ _ Hinv Hno).
  - intros u v w He.
    destruct (edge_endpoints _ _ _ _ Hwf He) as [Hun Hvn].
    destruct (inv_dom _ _ _ _ Hinv u Hun) as [[du Hu] _].
    destruct (inv_dom _ _ _ _ Hinv v Hvn) as [[dv Hv] _].
    exists du, dv. split_and!; [done..|].
    pose proof (relaxation_settled _ _ _ _ u v w Hwf E Hno He) as Hs.
    rewrite (dget_lookup _ _ _ Hu), (dget_lookup _ _ _ Hv) in Hs.
    by apply ext_ltb_false_le.
Qed.

(** In exact arithmetic: when a negative-weight cycle can be reached from
    the source, [ProteinGraph.bellman_ford] never returns an empty cycle
    list: whatever list it returns is non-empty and is, read from its last
    pair to its first, a closed walk of edges of the graph whose weights sum
    to less than 0.  The script's [bellman_ford] returns the non-empty list
    of the edges that can still be relaxed.  On floats this fails, see
    [absorption_hides_cycle]. *)
Theorem bellman_ford_negative_cycle es s fuel :
  negative_cycle_reachable (graph_of es) s ->
  (forall d p L, bellman_ford fuel (graph_of es) s = Returned (d, p, L) ->
     L <> [] /\
     exists c W, walk (graph_of es) c W c /\ pairs W = reverse L /\
                 (weight W < 0)%Q) /\
  (exists d p L, script_bellman_ford (graph_of es) s = Returned (d, p, L) /\
     L <> [] /\
     forall u v, (u, v) ∈ L ->
       exists w, (u, v, w) ∈ edges (graph_of es) /\ relaxable d (u, v, w) = true).
Proof.
  intros Hneg. pose proof (wf_built es) as Hwf. fold (graph_of es) in Hwf.
  destruct (relaxation_inv (graph_of es) s Hwf) as (d & p & E & Hinv).
  destruct (unsettled_edges _ _ _ _ Hwf E Hneg) as [v Hv].
  split.
  - intros d' p' L EL. rewrite (bellman_ford_eq _ _ _ _ _ Hwf E), Hv in EL.
    destruct (walk_back p (length (nodes (graph_of es))) (Some v)) as [c| |];
      simpl in EL; [|discriminate..].
    destruct (cycle_loop fuel p c c []) as [L0| |] eqn:EC; simpl in EL;
      [|discriminate..].
    injection EL as <- <- <-.
    destruct c as [c|]; [|by apply cycle_loop_None in EC].
    destruct (cycle_loop_walk _ _ _ _ _ _ _ _ _ Hinv EC) as (W & HW & Hwalk & Hpe & ->).
    simpl. split.
    + intros Hnil. apply (f_equal length) in Hnil.
      rewrite length_reverse in Hnil. unfold pairs in Hnil.
      rewrite length_fmap in Hnil. by destruct W.
    + exists c, W. split_and!; [done|by rewrite reverse_involutive|].
      by apply (inv_cycle _ _ _ _ Hinv c W).
  - eexists d, p, _. split; [by apply script_bellman_ford_eq|]. split.
    + intros Hnil. apply fmap_nil_inv in Hnil.
      by apply (relaxable_filter_cons _ _ _ Hv).
    + intros a b ([[a' b'] w] & [= -> ->] & Hin)%list_elem_of_fmap.
      apply list_elem_of_filter in Hin as [Hr Hin]. by exists w.
Qed.
(** *** The relaxation passes, as the design document words them *)

(** One edge: the update happens when distance(u) is finite and
    distance(u) + w < distance(v). *)
Definition spec_relax_edge
    (st : gmap node ext * gmap node (option node)) (e : @edge node Q)
  : gmap node ext * gmap node (option node) :=
  let '(d, p) := st in
  let '(u, v, w) := e in
  match dget d u with
  | Fin qu =>
      if ext_ltb (Fin (qu + w)) (dget d v)
      then (<[v := Fin (qu + w)]> d, <[v := Some u]> p)
      else (d, p)
  | PInf => (d, p)
  end.

(** One full pass over all edges. *)
Definition spec_pass g (st : gmap node ext * gmap node (option node)) :=
  foldl spec_relax_edge st (edges g).

(** Exactly [|V| - 1] passes from the initial dictionaries. *)
Definition spec_relaxation g s :=
  Nat.iter (length (nodes g) - 1) (spec_pass g) (init_state g s).

Lemma relax_edge_spec g d p u v w :
  wf_graph g -> dom_ok g d -> (u, v, w) ∈ edges g ->
  relax_edge (d, p) (u, v, w) = Returned (spec_relax_edge (d, p) (u, v, w)).
Proof.
  intros Hwf Hdom He.
  destruct (edge_endpoints _ _ _ _ Hwf He) as [Hun Hvn].
  destruct (Hdom u Hun) as [du Hu]. destruct (Hdom v Hvn) as [dv Hv].
  rewrite (relax_edge_eq _ _ _ _ _ _ _ Hu Hv). unfold spec_relax_edge.
  rewrite (dget_lookup _ _ _ Hu), (dget_lookup _ _ _ Hv).
  by destruct du.
Qed.

Lemma relax_pass_spec g d p :
  wf_graph g -> dom_ok g d ->
  relax_pass g (d, p) = Returned (spec_pass g (d, p)) /\
  dom_ok g (spec_pass g (d, p)).1.
Proof.
  intros Hwf. unfold relax_pass, spec_pass.
  assert (Hl : forall e, e ∈ edges g -> e ∈ edges g) by done.
  revert Hl d p. generalize (edges g) at 1 3 4 5.
  induction l as [|[[u v] w] r IH]; intros Hl d p Hdom; [done|].
  cbn [for_each foldl].
  destruct (relax_edge_bound g d p u v w Hwf Hdom) as (d1 & p1 & E1 & Hdom1 & _);
    [apply Hl; left|].
  pose proof (relax_edge_spec g d p u v w Hwf Hdom) as E2.
  assert (E3 : spec_relax_edge (d, p) (u, v, w) = (d1, p1)).
  { specialize (E2 (Hl _ (list_elem_of_here _ _))). congruence. }
  rewrite E1, E3. simpl. apply IH; [|done]. intros e He. apply Hl. by right.
Qed.

Lemma for_range_spec g k d p :
  wf_graph g -> dom_ok g d ->
  for_range k (relax_pass g) (d, p) = Returned (Nat.iter k (spec_pass g) (d, p)).
Proof.
  intros Hwf. revert d p. induction k as [|k IH]; intros d p Hdom; [done|].
  cbn [for_range]. destruct (relax_pass_spec g d p Hwf Hdom) as [E Hdom1].
  rewrite E, Nat.iter_succ_r.
  destruct (spec_pass g (d, p)) as [d1 p1]. by apply IH.
Qed.

(** In exact arithmetic, where a distance is finite or [inf]: the
    relaxation of [bellman_ford] is exactly [|V| - 1] full passes over all
    edges (none for an empty graph), and the guard of the code, which has no
    finiteness test, agrees with the worded one.  On floats a distance can
    be [-inf], see [finite_guard_counterexample]. *)
Theorem relaxation_passes es s :
  relaxation (graph_of es) s = Returned (spec_relaxation (graph_of es) s) /\
  forall d p u v w du dv, d !! u = Some du -> d !! v = Some dv ->
    (is_fin du /\ ext_ltb (ext_add du w) dv = true ->
     relax_edge (d, p) (u, v, w) =
     Returned (<[v := ext_add du w]> d, <[v := Some u]> p)) /\
    (~ (is_fin du /\ ext_ltb (ext_add du w) dv = true) ->
     relax_edge (d, p) (u, v, w) = Returned (d, p)).
Proof.
  pose proof (wf_built es) as Hwf. fold (graph_of es) in Hwf. split.
  - unfold relaxation, spec_relaxation, init_state.
    apply (for_range_spec _ _ _ _ Hwf). apply (init_dom_ok (graph_of es) s).
  - intros d p u v w du dv Hu Hv. rewrite (relax_edge_eq _ _ _ _ _ _ _ Hu Hv).
    split.
    + by intros [_ ->].
    + intros Hn. destruct (ext_ltb (ext_add du w) dv) eqn:Hlt; [|done].
      exfalso. apply Hn. split; [|done]. by destruct du.
Qed.

(** C4, as the code has it.  The anchor is the target of the first edge,
    in the order in which [G.edges] lists the edges (by source node in
    the order the nodes were first seen, then by successor), that can
    still be relaxed after the passes; when no edge can, there is no
    anchor. *)
Theorem anchor_first_relaxable es s :
  exists d p, relaxation (graph_of es) s = Returned (d, p) /\
    ((detect d (edges (graph_of es)) = Returned None /\
      forall e, e ∈ edges (graph_of es) -> relaxable d e = false) \/
     (exists l1 e l2, edges (graph_of es) = l1 ++ e :: l2 /\
        relaxable d e = true /\
        (forall e', e' ∈ l1 -> relaxable d e' = false) /\
        detect d (edges (graph_of es)) = Returned (Some e.1.2))).
Proof.
  pose proof (wf_built es) as Hwf. fold (graph_of es) in Hwf.
  destruct (relaxation_inv (graph_of es) s Hwf) as (d & p & E & Hinv).
  exists d, p. split; [done|].
  rewrite (detect_eq _ d _ Hwf (inv_dom_ok _ _ _ _ Hinv)) by done.
  destruct (first_relaxable d (edges (graph_of es))) as [v|] eqn:Hf.
  - right. apply first_relaxable_Some in Hf as (l1 & e & l2 & El & <- & Hr & Hl1).
    by exists l1, e, l2.
  - left. split; [done|]. by apply first_relaxable_None.
Qed.

(** The reading of C4 that takes the order of the edge list given to the
    constructor. *)
Definition anchor_insertion_order_claim es s : Prop :=
  forall d p, relaxation (graph_of es) s = Returned (d, p) ->
    detect d (edges (graph_of es)) = Returned (first_relaxable d es).

(** *** A source that is not a node *)

Lemma relax_pass_all_inf g d p :
  wf_graph g -> (forall v, v ∈ nodes g -> d !! v = Some PInf) ->
  relax_pass g (d, p) = Returned (d, p).
Proof.
  intros Hwf Hinf. unfold relax_pass.
  assert (Hl : forall e, e ∈ edges g -> e ∈ edges g) by done.
  revert Hl. generalize (edges g) at 1 3.
  induction l as [|[[u v] w] r IH]; intros Hl; [done|].
  destruct (edge_endpoints g u v w Hwf) as [Hun Hvn]; [apply Hl; left|].
  cbn [for_each].
  rewrite (relax_edge_eq _ _ _ _ _ _ _ (Hinf u Hun) (Hinf v Hvn)). simpl.
  apply IH. intros e He. apply Hl. by right.
Qed.

Lemma for_range_fixed {S : Type} (body : S -> outcome S) n st :
  body st = Returned st -> for_range n body st = Returned st.
Proof. intros E. induction n as [|n IH]; [done|]. simpl. by rewrite E. Qed.

Lemma init_lookup_other g s v :
  v <> s -> v ∈ nodes g -> (init_state g s).1 !! v = Some PInf.
Proof.
  intros N Hv. unfold init_state. simpl. rewrite lookup_insert_ne by congruence.
  by rewrite dict_const_lookup, decide_True.
Qed.

(** A call whose outcome is an exception. *)
Definition fails {A : Type} (o : outcome A) : Prop :=
  exists err : exn, o = Raised err.

(** C5, as the code has it.  For a source that is not a node of the
    graph, [bellman_ford] raises nothing: it returns an empty cycle list,
    a distance dictionary in which every node of the graph is at [inf] and
    to which the source has been added with distance 0, and a predecessor
    dictionary in which every node of the graph has [None] and the source
    has no entry. *)
Theorem bellman_ford_unknown_source es s fuel :
  s ∉ nodes (graph_of es) ->
  exists d p, bellman_ford fuel (graph_of es) s = Returned (d, p, []) /\
    d !! s = Some (Fin 0) /\ p !! s = None /\
    forall v, v ∈ nodes (graph_of es) ->
      d !! v = Some PInf /\ p !! v = Some None.
Proof.
  intros Hs. pose proof (wf_built es) as Hwf. fold (graph_of es) in Hwf.
  set (g := graph_of es) in *.
  assert (Hinf : forall v, v ∈ nodes g -> (init_state g s).1 !! v = Some PInf).
  { intros v Hv. apply init_lookup_other; [|done]. by intros ->. }
  assert (E : relaxation g s = Returned ((init_state g s).1, (init_state g s).2)).
  { unfold relaxation. rewrite (surjective_pairing (init_state g s)) at 1.
    apply for_range_fixed. by apply relax_pass_all_inf. }
  exists (init_state g s).1, (init_state g s).2. split_and!.
  - rewrite (bellman_ford_eq _ _ _ _ _ Hwf E).
    assert (first_relaxable (init_state g s).1 (edges g) = None) as ->; [|done].
    apply first_relaxable_None. intros [[u v] w] He.
    destruct (edge_endpoints _ _ _ _ Hwf He) as [Hun _].
    unfold relaxable. cbn [fst snd]. by rewrite (dget_lookup _ _ _ (Hinf u Hun)).
  - unfold init_state. simpl. by rewrite lookup_insert_eq.
  - unfold init_state. simpl. by rewrite dict_const_lookup, decide_False.
  - intros v Hv. split; [by apply Hinf|].
    unfold init_state. simpl. by rewrite dict_const_lookup, decide_True.
Qed.

(** *** Nodes that cannot be reached *)

(** C10. After the relaxation of [bellman_ford], which is what every
    returning call hands back, every node of the graph to which there is no
    directed path from the source has distance [inf] and predecessor
    [None]; the guard never fires from a node at [inf], although it has no
    finiteness test. *)
Theorem unreachable_nodes es s :
  exists d p, relaxation (graph_of es) s = Returned (d, p) /\
    (forall fuel d' p' L,
       bellman_ford fuel (graph_of es) s = Returned (d', p', L) ->
       d' = d /\ p' = p) /\
    (exists L, script_bellman_ford (graph_of es) s = Returned (d, p, L)) /\
    (forall v, v ∈ nodes (graph_of es) ->
       ~ (exists P, walk (graph_of es) s P v) ->
       d !! v = Some PInf /\ p !! v = Some None) /\
    (forall (w : Q) (a : ext), ext_ltb (ext_add PInf w) a = false).
Proof.
  pose proof (wf_built es) as Hwf. fold (graph_of es) in Hwf.
  destruct (relaxation_inv (graph_of es) s Hwf) as (d & p & E & Hinv).
  exists d, p. split_and!; [done| | | |done].
  - intros fuel d' p' L EL. rewrite (bellman_ford_eq _ _ _ _ _ Hwf E) in EL.
    destruct (first_relaxable d _); [|by injection EL as <- <- _].
    destruct (walk_back _ _ _) as [c| |]; simpl in EL; [|discriminate..].
    destruct (cycle_loop _ _ _ _ _); simpl in EL; [|discriminate..].
    by injection EL as <- <- _.
  - eexists. by apply script_bellman_ford_eq.
  - intros v Hv Hno. destruct (inv_dom _ _ _ _ Hinv v Hv) as [[dv Hd] _].
    destruct dv as [q|].
    + exfalso. apply Hno. destruct (inv_walk _ _ _ _ Hinv v q Hd) as (P & HP & _).
      by exists P.
    + split; [done|]. by apply (inv_inf _ _ _ _ Hinv).
Qed.
End bellman_ford_facts.

(** ** Path reconstruction and construction *)

Section path_facts.
Context {node : Type} `{Countable node}.
Implicit Types (g : @DiGraph node Q) (s e : node) (es : list (@edge node Q))
  (d : gmap node ext) (p : gmap node (option node)) (path : list node).

(** [back_chain p path e]: [path] lists, first visited last, the nodes
    that walking backward from [e] along [p] visits before it meets a
    node whose predecessor is [None]. *)
Inductive back_chain p : list node -> node -> Prop :=
  | back_chain_stop e : p !! e = Some None -> back_chain p [e] e
  | back_chain_step e e' path :
      p !! e = Some (Some e') -> back_chain p path e' ->
      back_chain p (path ++ [e]) e.

Lemma path_loop_chain p path e fuel acc :
  back_chain p path e -> (length path <= fuel)%nat ->
  path_loop fuel p (Some e) acc = Returned (path ++ acc).
Proof.
  intros Hc. revert fuel acc. induction Hc as [e He|e e' path He Hc IH];
    intros fuel acc Hlen.
  - destruct fuel as [|fuel]; [simpl in Hlen; lia|].
    cbn [path_loop]. unfold getitem. rewrite He. simpl. by destruct fuel.
  - rewrite length_app in Hlen. simpl in Hlen.
    destruct fuel as [|fuel]; [lia|].
    cbn [path_loop]. unfold getitem. rewrite He. simpl.
    rewrite IH by lia. by rewrite <- app_assoc.
Qed.

Lemma path_loop_returned p fuel e acc L :
  path_loop fuel p (Some e) acc = Returned L ->
  exists path, back_chain p path e /\ L = path ++ acc.
Proof.
  revert e acc. induction fuel as [|fuel IH]; intros e acc E; [discriminate|].
  cbn [path_loop] in E. unfold getitem in E.
  destruct (p !! e) as [[e'|]|] eqn:He; simpl in E; [| |discriminate].
  - destruct (IH _ _ E) as (path & Hc & ->).
    exists (path ++ [e]). split; [by eapply back_chain_step|].
    by rewrite <- app_assoc.
  - exists [e]. split; [by constructor|]. destruct fuel; by injection E as <-.
Qed.

Lemma back_chain_nonempty p path e : back_chain p path e -> path <> [].
Proof. destruct 1; [done|]. by destruct path. Qed.

(** What [reconstruct_path] returns for a completed backward walk. *)
Definition path_answer (start : node) path : option (list node) :=
  if decide (head path = Some start) then Some path else None.

(** [reconstruct_path] returns, for a backward walk from [end] that ends
    at a node without predecessor, the sequence of the walk when its first
    element is [start] and [None] otherwise, and it returns nothing else;
    and, in exact arithmetic, for the predecessor dictionary that
    [bellman_ford] returns for a source [s] of the graph from which no
    negative cycle can be reached, [reconstruct_path(predecessor, s, s)] is
    [[s]]. *)
Theorem reconstruct_path_spec :
  (forall p start e path fuel,
     back_chain p path e -> (length path <= fuel)%nat ->
     reconstruct_path fuel p start (Some e) = Returned (path_answer start path) /\
     script_reconstruct_path fuel p start (Some e) = Returned (path_answer start path)) /\
  (forall p start e fuel r,
     reconstruct_path fuel p start (Some e) = Returned r ->
     exists path, back_chain p path e /\ r = path_answer start path) /\
  (forall es s fuel fuel' d p L,
     s ∈ nodes (graph_of es) ->
     ~ negative_cycle_reachable (graph_of es) s ->
     bellman_ford fuel (graph_of es) s = Returned (d, p, L) ->
     reconstruct_path (S fuel') p s (Some s) = Returned (Some [s])).
Proof.
  split_and!.
  - intros p start e path fuel Hc Hlen.
    unfold reconstruct_path, script_reconstruct_path.
    rewrite (path_loop_chain _ _ _ _ [] Hc Hlen), app_nil_r. simpl.
    pose proof (back_chain_nonempty _ _ _ Hc) as HN.
    destruct path as [|x r]; [done|]. unfold path_answer. simpl.
    destruct (decide (x = start)) as [->|N].
    + by rewrite decide_True.
    + rewrite decide_False; [done|]. by intros [= ->].
  - intros p start e fuel r E. unfold reconstruct_path in E.
    destruct (path_loop fuel p (Some e) []) as [L| |] eqn:EL; simpl in E;
      [|discriminate..].
    destruct (path_loop_returned _ _ _ _ _ EL) as (path & Hc & ->).
    rewrite app_nil_r in E. exists path. split; [done|].
    pose proof (back_chain_nonempty _ _ _ Hc) as HN.
    destruct path as [|x r']; [done|]. unfold path_answer. simpl.
    injection E as <-. destruct (decide (x = start)) as [->|N].
    + by rewrite decide_True.
    + rewrite decide_False; [done|]. by intros [= ->].
  - intros es s fuel fuel' d p L Hs Hno EL.
    pose proof (wf_built es) as Hwf. fold (graph_of es) in Hwf.
    destruct (relaxation_inv (graph_of es) s Hwf) as (d0 & p0 & E & Hinv).
    assert (p = p0) as ->.
    { rewrite (bellman_ford_eq _ _ _ _ _ Hwf E) in EL.
      rewrite (settled_edges _ _ _ _ Hwf E Hno) in EL. by injection EL as _ <- _. }
    destruct (source_distance_zero _ _ _ _ Hinv Hno) as [_ [Hp|Hp]].
    + destruct (inv_dom _ _ _ _ Hinv s Hs) as [_ [? Hp']]. congruence.
    + unfold reconstruct_path. cbn [path_loop]. unfold getitem. rewrite Hp. simpl.
      destruct fuel'; simpl; by rewrite decide_True.
Qed.

(** More fuel does not change an answer. *)
Lemma path_loop_mono p n m (end_ : option node) acc L :
  path_loop n p end_ acc = Returned L -> (n <= m)%nat ->
  path_loop m p end_ acc = Returned L.
Proof.
  revert m end_ acc. induction n as [|n IH]; intros m end_ acc E Hle.
  - destruct end_; [discriminate|]. by destruct m.
  - destruct end_ as [e|]; [|by destruct m].
    destruct m as [|m]; [lia|]. cbn [path_loop] in *.
    destruct (getitem p e) as [nxt| |]; simpl in *; [|discriminate..].
    apply IH; [done|lia].
Qed.

Lemma reconstruct_path_mono p n m start (end_ : option node) r :
  reconstruct_path n p start end_ = Returned r -> (n <= m)%nat ->
  reconstruct_path m p start end_ = Returned r.
Proof.
  unfold reconstruct_path. intros E Hle.
  destruct (path_loop n p end_ []) as [L| |] eqn:EL; simpl in E; [|discriminate..].
  by rewrite (path_loop_mono _ _ _ _ _ _ EL Hle).
Qed.

Lemma chain_edges_short (r : list node) :
  (length r < 2)%nat -> chain_edges r = [].
Proof.
  intros Hlen. unfold chain_edges.
  assert (length r - 1 = 0)%nat as -> by lia. done.
Qed.

(** C6, as the code has it.  [ProteinGraph(edges=[])] without a PDB file
    raises [ValueError], and so does a call with neither argument.  A
    chain from fewer than two residues does not fail: the graph it builds
    has no node and no edge. *)
Theorem construction_failures (parse : string -> list node) (name : string) :
  init parse (Some []) None name = Raised ValueError /\
  init parse None None name = Raised ValueError /\
  forall f edges, f <> EmptyString -> (length (parse f) < 2)%nat ->
    edges = None \/ edges = Some [] ->
    init parse edges (Some f) name = Returned (mkProteinGraph empty_graph name).
Proof.
  split_and!; [done..|]. intros f edges Hf Hlen Hedges.
  destruct f as [|c f]; [done|].
  destruct Hedges as [-> | ->]; simpl; unfold build_from_pdb;
    by rewrite (chain_edges_short _ Hlen).
Qed.
End path_facts.

(** ** Where [reconstruct_path] raises or does not come back *)

Section reconstruct_facts.
Context {node : Type} `{Countable node}.
Implicit Types (start e x y : node) (p : gmap node (option node)).

(** The two versions of [reconstruct_path] differ only for [end = None]:
    the method's guard [path and ...] makes it return [None], the script's
    [path[0]] raises [IndexError].  For a node as [end] they agree, and both
    raise [KeyError] when [end] is no key of the dictionary. *)
Theorem reconstruct_path_edge_cases fuel p start :
  reconstruct_path fuel p start None = Returned None /\
  script_reconstruct_path fuel p start None = Raised IndexError /\
  (forall e, script_reconstruct_path fuel p start (Some e) =
             reconstruct_path fuel p start (Some e)) /\
  (forall e, p !! e = None ->
     reconstruct_path (S fuel) p start (Some e) = Raised KeyError).
Proof.
  split_and!.
  - by destruct fuel.
  - by destruct fuel.
  - intros e. unfold script_reconstruct_path, reconstruct_path.
    destruct (path_loop fuel p (Some e) []) as [L| |] eqn:EL; [|done..].
    destruct (path_loop_returned _ _ _ _ _ EL) as (path & Hc & ->).
    apply back_chain_nonempty in Hc. rewrite app_nil_r. by destruct path.
  - intros e He. unfold reconstruct_path. cbn [path_loop]. unfold getitem.
    by rewrite He.
Qed.

(** On a predecessor dictionary with a cycle the backward walk has no end:
    if [end] belongs to a set of nodes each of which has a predecessor in
    the set, no amount of fuel makes [reconstruct_path] return. *)
Theorem reconstruct_path_diverges p (S : node -> Prop) start e :
  (forall x, S x -> exists y, p !! x = Some (Some y) /\ S y) -> S e ->
  forall fuel,
    reconstruct_path fuel p start (Some e) = OutOfFuel /\
    script_reconstruct_path fuel p start (Some e) = OutOfFuel.
Proof.
  intros HS He fuel.
  assert (Hloop : forall acc, path_loop fuel p (Some e) acc = OutOfFuel).
  { revert e He. induction fuel as [|fuel IH]; intros e He acc; [done|].
    destruct (HS e He) as (y & Hy & HSy).
    cbn [path_loop]. unfold getitem. rewrite Hy. simpl. by apply IH. }
  unfold reconstruct_path, script_reconstruct_path. by rewrite Hloop.
Qed.
End reconstruct_facts.

(** ** The chain of a PDB file *)

Section chain_facts.
Context {node : Type} `{Countable node}.
Implicit Types (r : list node) (u v x a b : node) (w c : Q)
  (es : list (@edge node Q)).

Lemma chain_edges_elem r u v w :
  (u, v, w) ∈ chain_edges r <->
  w = (- (1 # 2))%Q /\ exists i, r !! i = Some u /\ r !! S i = Some v.
Proof.
  unfold chain_edges. rewrite list_elem_of_omap. split.
  - intros (i & _ & E). replace (i + 1)%nat with (S i) in E by lia.
    destruct (r !! i) as [u'|] eqn:Hu; [|done]. simpl in E.
    destruct (r !! S i) as [v'|] eqn:Hv; [|done]. simpl in E.
    injection E as -> -> <-. split; [done|]. by exists i.
  - intros (-> & i & Hu & Hv). exists i. split.
    + apply elem_of_seq. apply lookup_lt_Some in Hv. lia.
    + replace (i + 1)%nat with (S i) by lia. rewrite Hu. simpl. by rewrite Hv.
Qed.

Lemma last_weight_const es a b c w acc :
  (forall e, e ∈ es -> e.2 = c) ->
  foldl (fun acc e => if decide (a = e.1.1 /\ b = e.1.2) then Some e.2 else acc)
        acc es = Some w <->
  ((a, b, c) ∈ es /\ w = c) \/ (((a, b, c) ∉ es) /\ acc = Some w).
Proof.
  revert acc. induction es as [|[[u v] w0] es IH]; intros acc Hc; simpl.
  - split; [intros ->; right; split; [apply not_elem_of_nil|done]|].
    intros [[E _]|[_ ?]]; [by apply elem_of_nil in E|done].
  - assert (w0 = c) as -> by (apply (Hc (u, v, w0)); left).
    rewrite IH by (intros e He; apply Hc; by right).
    rewrite not_elem_of_cons, elem_of_cons.
    destruct (decide (a = u /\ b = v)) as [[-> ->]|N].
    + split.
      * intros [[? ->]|[_ [= ->]]]; left; split; auto.
      * intros [[_ ->]|[[N _] _]]; [|done].
        destruct (decide ((u, v) ∈ es.*1)) as [Hin|Hnin].
        -- left. split; [|done].
           apply list_elem_of_fmap in Hin as ([[u' v'] w'] & [= <- <-] & Hin).
           assert (w' = c) as <-; [|done].
           apply (Hc (u, v, w')). by right.
        -- right. split; [|done]. intros Hin. apply Hnin.
           apply list_elem_of_fmap. by exists (u, v, c).
    + assert (Hne : (a, b, c) <> (u, v, c)) by (intros [= -> ->]; tauto).
      tauto.
Qed.

(** [build_from_pdb] on an empty graph: the edges of the chain are the
    pairs of consecutive residues, each with weight -0.5, and nothing else;
    the nodes are the residues when there are at least two of them, and
    none otherwise; [len(residues) - 1] edges are handed to networkx. *)
Theorem build_from_pdb_chain r :
  (forall u v w, (u, v, w) ∈ edges (build_from_pdb r empty_graph) <->
     w = (- (1 # 2))%Q /\ exists i, r !! i = Some u /\ r !! S i = Some v) /\
  (forall x, x ∈ nodes (build_from_pdb r empty_graph) <->
     (2 <= length r)%nat /\ x ∈ r) /\
  length (chain_edges r) = (length r - 1)%nat.
Proof.
  unfold build_from_pdb. fold (graph_of (chain_edges r)).
  destruct (graph_of_contents (chain_edges r)) as (_ & Hn & He & _). split_and!.
  - intros u v w. rewrite He. unfold last_weight.
    rewrite (last_weight_const _ _ _ (- (1 # 2))%Q).
    + rewrite chain_edges_elem. split.
      * intros [[[_ ?] ->]|[_ ?]]; [done|done].
      * intros [-> ?]. left. done.
    + intros [[a b] w'] Hin. by apply chain_edges_elem in Hin as [-> _].
  - intros x. rewrite Hn. split.
    + intros (u & v & w & Hin & Hx). apply chain_edges_elem in Hin as (_ & i & Hu & Hv).
      split; [apply lookup_lt_Some in Hv; lia|].
      destruct Hx as [-> | ->]; eapply list_elem_of_lookup_2; eauto.
    + intros [Hlen Hx]. apply list_elem_of_lookup in Hx as [i Hi].
      destruct (r !! S i) as [y|] eqn:Hy.
      * exists x, y, (- (1 # 2))%Q. split; [|by left].
        apply chain_edges_elem. split; [done|]. by exists i.
      * destruct i as [|i].
        -- apply lookup_ge_None in Hy. lia.
        -- destruct (lookup_lt_is_Some_2 r i) as [y Hy'];
             [apply lookup_lt_Some in Hi; lia|].
           exists y, x, (- (1 # 2))%Q. split; [|by right].
           apply chain_edges_elem. split; [done|]. by exists i.
  - unfold chain_edges.
    assert (Hall : forall n, (n <= length r - 1)%nat ->
              length (omap (fun i => u ← r !! i; v ← r !! (i + 1)%nat;
                                     Some (u, v, (- (1 # 2))%Q)) (seq 0 n)) = n).
    { induction n as [|n IH]; intros Hn'; [done|].
      rewrite seq_S, omap_app, length_app, IH by lia. simpl.
      destruct (lookup_lt_is_Some_2 r n) as [u Hu]; [lia|].
      destruct (lookup_lt_is_Some_2 r (n + 1)) as [v Hv]; [lia|].
      rewrite Hu. simpl. rewrite Hv. simpl. lia. }
    by apply Hall.
Qed.
End chain_facts.

(** ** The example graphs *)

Lemma no_negative_cycle_check {node : Type} `{Countable node}
    (g : @DiGraph node Q) (s : node) d p :
  wf_graph g -> relaxation g s = Returned (d, p) ->
  first_relaxable d (edges g) = None ->
  ~ negative_cycle_reachable g s.
Proof.
  intros Hwf E Hf. apply (settled_no_negative_cycle g s d p Hwf E).
  intros u v w He. by apply (proj1 (first_relaxable_None d (edges g)) Hf (u, v, w)).
Qed.

Ltac edge_in := apply list_elem_of_In; vm_compute;
  repeat (first [left; reflexivity | right]).

Lemma example_graph_acyclic : ~ negative_cycle_reachable (graph_of edges_example) "U".
Proof.
  eapply no_negative_cycle_check; [apply wf_built| |]; vm_compute; reflexivity.
Qed.

Lemma example_n_graph_cycle : negative_cycle_reachable (graph_of neg_edges_example) "U".
Proof.
  exists "A", [("U", "A", -2)%Q],
    [("A", "B", - (3 # 2))%Q; ("B", "C", -3)%Q; ("C", "A", - (5 # 2))%Q].
  split_and!.
  - constructor; [edge_in|constructor].
  - repeat (constructor; [edge_in|]). constructor.
  - reflexivity.
Qed.

(** C8. On the seven-edge example graph, [bellman_ford("U")] returns an
    empty cycle list and [distance["F"] == -8.5], and the reconstructed path
    from "U" to "F" is [["U", "A", "B", "C", "F"]]. *)
Theorem example_graph_lowest_energy (fuel k : nat) :
  exists d p q,
    bellman_ford fuel (graph_of edges_example) "U" = Returned (d, p, []) /\
    d !! "F" = Some (Fin q) /\ (q == - (17 # 2))%Q /\
    reconstruct_path (5 + k) p "U" (Some "F") =
    Returned (Some ["U"; "A"; "B"; "C"; "F"]).
Proof.
  eexists _, _, _. split_and!.
  - vm_compute. reflexivity.
  - vm_compute. reflexivity.
  - reflexivity.
  - apply (reconstruct_path_mono _ 5); [|lia]. vm_compute. reflexivity.
Qed.

(** *** Where the extraction of the cycle breaks *)

Definition self_loop : list (@edge string Q) := [("A", "A", -1)%Q].

Lemma self_loop_cycle : negative_cycle_reachable (graph_of self_loop) "A".
Proof.
  exists "A", [], [("A", "A", -1)%Q]. split_and!.
  - constructor.
  - constructor; [edge_in|constructor].
  - reflexivity.
Qed.

(** C9 at a failing input.  A single edge from "A" to "A" of weight -1 is
    a negative cycle through the source; the detection finds the edge, the
    one step backward from "A" yields [None], and the first lookup of the
    cycle loop, [predecessor[None]], raises [KeyError]. *)
Theorem cycle_extraction_raises (fuel : nat) :
  negative_cycle_reachable (graph_of self_loop) "A" /\
  (exists d p, relaxation (graph_of self_loop) "A" = Returned (d, p) /\
     detect d (edges (graph_of self_loop)) = Returned (Some "A") /\
     walk_back p (length (nodes (graph_of self_loop))) (Some "A") = Returned None) /\
  bellman_ford (S fuel) (graph_of self_loop) "A" = Raised KeyError.
Proof.
  split_and!.
  - apply self_loop_cycle.
  - eexists _, _. split_and!; vm_compute; reflexivity.
  - vm_compute. reflexivity.
Qed.

(** *** The claims as worded, at concrete inputs *)

(** [G[u][v]["weight"]], 0 for a pair that is no edge. *)
Definition pair_weight {node : Type} `{Countable node} (g : @DiGraph node Q)
    (e : option node * option node) : Q :=
  match e with
  | (Some u, Some v) => default 0%Q (nbrs ← dict_get u g; dict_get v nbrs)
  | _ => 0%Q
  end.

(** The cycle list as the design document words it: non-empty, the target
    of its last edge is the source of its first edge, and its weights sum to
    less than 0. *)
Definition negative_cycle_claim {node : Type} `{Countable node}
    (es : list (@edge node Q)) (s : node) : Prop :=
  negative_cycle_reachable (graph_of es) s ->
  exists fuel d p L,
    bellman_ford fuel (graph_of es) s = Returned (d, p, L) /\ L <> [] /\
    (exists a b, head L = Some a /\ last L = Some b /\ b.2 = a.1) /\
    (foldr (fun e acc => pair_weight (graph_of es) e + acc) 0 L < 0)%Q.

Lemma example_n_graph_cycle_edges fuel d p L :
  bellman_ford fuel (graph_of neg_edges_example) "U" = Returned (d, p, L) ->
  L = [(Some "C", Some "A"); (Some "B", Some "C"); (Some "A", Some "B")].
Proof.
  intros E. destruct fuel as [|[|[|fuel]]]; vm_compute in E;
    try discriminate E. by injection E as _ _ <-.
Qed.

Lemma negative_cycle_counterexample : ~ negative_cycle_claim neg_edges_example "U".
Proof.
  intros Hc. destruct (Hc example_n_graph_cycle)
    as (fuel & d & p & L & E & _ & (a & b & Ha & Hb & Hab) & _).
  apply example_n_graph_cycle_edges in E. subst L.
  injection Ha as <-. injection Hb as <-. discriminate Hab.
Qed.

(** C4 fails for the order of the constructor's edge list: with the edges
    A->B, B->B, A->A of weight -1 each and source "A", [G.edges] lists
    A->B, A->A, B->B, and the anchor is "A", while the first edge of the
    given list that can still be relaxed is B->B. *)
Definition two_loops : list (@edge string Q) :=
  [("A", "B", -1)%Q; ("B", "B", -1)%Q; ("A", "A", -1)%Q].

Lemma anchor_counterexample : ~ anchor_insertion_order_claim two_loops "A".
Proof.
  intros Hc.
  specialize (Hc _ _ ltac:(vm_compute; reflexivity)).
  vm_compute in Hc. discriminate Hc.
Qed.

(** C5 fails: "Z" is not a node of the graph with the single edge A->B, and
    [bellman_ford] raises nothing. *)
Lemma unknown_source_counterexample :
  ("Z" ∉ nodes (graph_of [("A", "B", 1%Q)])) /\
  ~ fails (bellman_ford 0 (graph_of [("A", "B", 1%Q)]) "Z").
Proof.
  split.
  - vm_compute. intros Hin. apply list_elem_of_In in Hin.
    destruct Hin as [E|[E|[]]]; discriminate E.
  - intros [err E]. vm_compute in E. discriminate E.
Qed.

Lemma bellman_ford_unknown_source_witness :
  exists d p, bellman_ford 0 (graph_of [("A", "B", 1%Q)]) "Z" = Returned (d, p, []) /\
    d !! "Z" = Some (Fin 0) /\ p !! "Z" = None /\
    forall v, v ∈ nodes (graph_of [("A", "B", 1%Q)]) ->
      d !! v = Some PInf /\ p !! v = Some None.
Proof.
  exact (bellman_ford_unknown_source [("A", "B", 1%Q)] "Z" 0
           (proj1 unknown_source_counterexample)).
Defined.

(** C6 fails for the chain: a PDB file with the single residue 7 gives a
    graph, not an error. *)
Lemma chain_counterexample :
  (length ((fun _ : string => [7%nat]) "1ubq.pdb") < 2)%nat /\
  ~ fails (init (fun _ => [7%nat]) None (Some "1ubq.pdb") "Ubiquitin").
Proof.
  split; [simpl; lia|]. intros [err E]. vm_compute in E. discriminate E.
Qed.

Lemma construction_failures_witness :
  init (fun _ => [7%nat]) None (Some "1ubq.pdb") "Ubiquitin" =
  Returned (mkProteinGraph empty_graph "Ubiquitin").
Proof.
  apply (proj2 (proj2 (construction_failures (fun _ => [7%nat]) "Ubiquitin")));
    [discriminate|simpl; lia|by left].
Defined.

Lemma unreachable_nodes_witness :
  exists d p, relaxation (graph_of [("A", "B", 1%Q)]) "B" = Returned (d, p) /\
    d !! "A" = Some PInf /\ p !! "A" = Some None.
Proof.
  destruct (unreachable_nodes [("A", "B", 1%Q)] "B") as (d & p & E & _ & _ & Hu & _).
  exists d, p. split; [exact E|]. apply Hu.
  - apply list_elem_of_In. vm_compute. left. reflexivity.
  - intros [P HP]. inversion HP as [|? ? ? ? ? He]; subst.
    apply list_elem_of_In in He. vm_compute in He.
    destruct He as [He|[]]. discriminate He.
Defined.


(** ** The backward walks of the cycle extraction *)

Section extraction_facts.
Context {node : Type} `{Countable node} {W : Type}.
Implicit Types (g : @DiGraph node W) (x y c : node)
  (p : gmap node (option node)).

(** One step backward, when the node has a predecessor. *)
Definition pstep p x : option node :=
  match p !! x with
  | Some (Some y) => Some y
  | _ => None
  end.

(** [k] steps backward. *)
Fixpoint iter_back p (k : nat) x : option node :=
  match k with
  | O => Some x
  | S k' => y ← pstep p x; iter_back p k' y
  end.

(** The nodes that [k] steps backward visit. *)
Fixpoint trail p (k : nat) x : list node :=
  x :: match k with
       | O => []
       | S k' => match pstep p x with
                 | Some y => trail p k' y
                 | None => []
                 end
       end.

Lemma walk_back_None p k c : walk_back p k None = Returned (Some c) -> False.
Proof. destruct k; discriminate. Qed.

Lemma walk_back_not_diverging p k (c : option node) : walk_back p k c <> OutOfFuel.
Proof.
  revert c. induction k as [|k IH]; intros c; [done|]. cbn [walk_back].
  destruct c as [x|]; [|done]. unfold getitem_opt, getitem.
  destruct (p !! x) as [c'|]; [|done]. simpl. apply IH.
Qed.

Lemma walk_back_iter p k x c :
  walk_back p k (Some x) = Returned (Some c) -> iter_back p k x = Some c.
Proof.
  revert x. induction k as [|k IH]; intros x E.
  - by injection E as ->.
  - cbn [walk_back] in E. unfold getitem_opt, getitem in E. cbn [iter_back].
    unfold pstep. destruct (p !! x) as [[y|]|]; simpl in E.
    + simpl. by apply IH.
    + by apply walk_back_None in E.
    + discriminate E.
Qed.

Lemma iter_back_add p a b x :
  iter_back p (a + b) x = iter_back p a x ≫= iter_back p b.
Proof.
  revert x. induction a as [|a IH]; intros x; [done|]. simpl.
  destruct (pstep p x) as [y|]; simpl; [apply IH|done].
Qed.

Lemma trail_length p k x c : iter_back p k x = Some c -> length (trail p k x) = S k.
Proof.
  revert x. induction k as [|k IH]; intros x E; [done|]. simpl in *.
  destruct (pstep p x) as [y|]; [|done]. simpl in E. by rewrite (IH y E).
Qed.

Lemma trail_lookup p k x c i :
  iter_back p k x = Some c -> (i <= k)%nat -> trail p k x !! i = iter_back p i x.
Proof.
  revert x i. induction k as [|k IH]; intros x i E Hi.
  - by assert (i = 0)%nat as -> by lia.
  - destruct i as [|i]; [done|]. simpl in *.
    destruct (pstep p x) as [y|]; [|done]. simpl in *. apply IH; [done|lia].
Qed.

Lemma trail_nodes g p k x :
  (forall v u, p !! v = Some (Some u) -> u ∈ nodes g) ->
  x ∈ nodes g -> trail p k x ⊆ nodes g.
Proof.
  intros Hp. revert x. induction k as [|k IH]; intros x Hx z Hz.
  - by apply list_elem_of_singleton in Hz as ->.
  - simpl in Hz. apply elem_of_cons in Hz as [->|Hz]; [done|].
    unfold pstep in Hz. destruct (p !! x) as [[y|]|] eqn:E;
      try by apply elem_of_nil in Hz.
    apply (IH y); [by apply (Hp x)|done].
Qed.

(** The pigeonhole argument behind "walk back [|V|] steps": a node reached
    by [|V|] steps backward lies on a cycle of the predecessor map. *)
Lemma back_cycle g p x c :
  (forall v u, p !! v = Some (Some u) -> u ∈ nodes g) ->
  x ∈ nodes g -> iter_back p (length (nodes g)) x = Some c ->
  exists m, (1 <= m <= length (nodes g))%nat /\ iter_back p m c = Some c.
Proof.
  intros Hp Hx Hc. set (n := length (nodes g)) in *.
  destruct (list_pigeonhole (trail p n x) (nodes g)) as (i1 & i2 & y & Hlt & H1 & H2).
  { by apply trail_nodes. }
  { rewrite (trail_length _ _ _ _ Hc). fold n. lia. }
  assert (Hi2 : (i2 <= n)%nat).
  { apply lookup_lt_Some in H2. rewrite (trail_length _ _ _ _ Hc) in H2. lia. }
  rewrite (trail_lookup _ _ _ _ _ Hc) in H1 by lia.
  rewrite (trail_lookup _ _ _ _ _ Hc) in H2 by lia.
  exists (i2 - i1)%nat. split; [lia|].
  assert (Hy : iter_back p (i2 - i1) y = Some y).
  { replace i2 with (i1 + (i2 - i1))%nat in H2 by lia.
    rewrite iter_back_add, H1 in H2. exact H2. }
  assert (Hyc : iter_back p (n - i1) y = Some c).
  { replace n with (i1 + (n - i1))%nat in Hc by lia.
    rewrite iter_back_add, H1 in Hc. exact Hc. }
  assert (E : iter_back p ((n - i1) + (i2 - i1)) y = iter_back p (i2 - i1) c).
  { by rewrite iter_back_add, Hyc. }
  rewrite <- E, Nat.add_comm, iter_back_add, Hy. exact Hyc.
Qed.

(** A backward walk that comes back to the cycle vertex makes the cycle loop
    return. *)
Lemma cycle_loop_returns p c0 j cur acc fuel :
  iter_back p j cur = Some c0 -> (1 <= j <= fuel)%nat ->
  exists L, cycle_loop fuel p (Some c0) (Some cur) acc = Returned L.
Proof.
  revert cur acc fuel. induction j as [|j IH]; intros cur acc fuel E Hj; [lia|].
  destruct fuel as [|fuel]; [lia|].
  cbn [iter_back] in E. unfold pstep in E. cbn [cycle_loop].
  unfold getitem_opt, getitem.
  destruct (p !! cur) as [[y|]|]; simpl in E; [|done..]. simpl.
  destruct (decide (Some y = Some c0)) as [_|N]; [by eexists|].
  destruct j as [|j]; [simpl in E; congruence|].
  apply (IH y); [done|lia].
Qed.

(** When the loop returns, the recorded pairs are, in reverse order, a walk
    along predecessor edges from the cycle vertex to the node the loop
    started at. *)
Lemma cycle_loop_trace g p fuel c cur acc L :
  (forall v u, p !! v = Some (Some u) -> exists w, (u, v, w) ∈ edges g) ->
  cycle_loop fuel p (Some c) (Some cur) acc = Returned L ->
  exists Wk : list (@edge node W), Wk <> [] /\ walk g c Wk cur /\
    (forall a b w, (a, b, w) ∈ Wk -> p !! b = Some (Some a)) /\
    L = acc ++ reverse ((fun e : @edge node W => (Some e.1.1, Some e.1.2)) <$> Wk).
Proof.
  intros Hp. revert cur acc. induction fuel as [|fuel IH]; intros cur acc E;
    [discriminate|].
  cbn [cycle_loop] in E. unfold getitem_opt, getitem in E.
  destruct (p !! cur) as [prev|] eqn:Hcur; [|discriminate]. simpl in E.
  destruct prev as [pr|].
  - destruct (Hp cur pr Hcur) as [w He].
    destruct (decide (Some pr = Some c)) as [[= ->]|N].
    + injection E as <-. exists [(c, cur, w)]. split_and!; [done| |..|done].
      * constructor; [done|constructor].
      * intros a b w' [[= -> -> ->]|E]%elem_of_cons; [done|].
        by apply elem_of_nil in E.
    + destruct (IH _ _ E) as (Wk & HW & Hwalk & Hpe & ->).
      exists (Wk ++ [(pr, cur, w)]). split_and!.
      * by destruct Wk.
      * by apply walk_snoc.
      * intros a b w' [?|[= -> -> ->]%list_elem_of_singleton]%elem_of_app;
          [by eapply Hpe|done].
      * rewrite fmap_app, reverse_app. simpl. by rewrite <- app_assoc.
  - destruct (decide (None = Some c)); [done|]. by apply cycle_loop_None in E.
Qed.
End extraction_facts.

(** * The code on binary64 floats

    The same functions with Python's own arithmetic: distances and weights
    are IEEE 754 binary64 numbers, [+] rounds to nearest and can overflow,
    and [<] is the IEEE comparison.  [walk_back], [cycle_loop], [path_loop]
    and [reconstruct_path] do no arithmetic and are the ones above. *)

Module Float64.
Section code.
Context {node : Type} `{Countable node}.
Local Abbreviation fedge := (@edge node float).
Local Abbreviation fgraph := (@DiGraph node float).
Local Abbreviation dist := (gmap node float).
Local Abbreviation pred := (gmap node (option node)).

(** The body of the relaxation loop for one edge. *)
Definition relax_edge (st : dist * pred) (e : fedge) : outcome (dist * pred) :=
  let '(d, p) := st in
  let '(u, v, w) := e in
  du ← getitem d u;
  dv ← getitem d v;
  if (du + w <? dv)%float
  then Returned (<[v := (du + w)%float]> d, <[v := Some u]> p)
  else Returned (d, p).

Definition relax_pass (g : fgraph) (st : dist * pred) : outcome (dist * pred) :=
  for_each relax_edge (edges g) st.

Definition init_state (g : fgraph) (source : node) : dist * pred :=
  (<[source := 0%float]> (dict_const (nodes g) infinity),
   dict_const (nodes g) (None : option node)).

(** Initialisation and the [len(nodes) - 1] passes. *)
Definition relaxation (g : fgraph) (source : node) : outcome (dist * pred) :=
  for_range (length (nodes g) - 1) (relax_pass g) (init_state g source).

(** The detection loop of [ProteinGraph.bellman_ford]. *)
Fixpoint detect (d : dist) (l : list fedge) : outcome (option node) :=
  match l with
  | [] => Returned None
  | (u, v, w) :: r =>
      du ← getitem d u;
      dv ← getitem d v;
      if (du + w <? dv)%float then Returned (Some v) else detect d r
  end.

(** [ProteinGraph.bellman_ford] of [protein.py]. *)
Definition bellman_ford (fuel : nat) (g : fgraph) (source : node)
  : outcome (dist * pred * list (option node * option node)) :=
  '(d, p) ← relaxation g source;
  cycle_vertex ← detect d (edges g);
  match cycle_vertex with
  | None => Returned (d, p, [])
  | Some _ =>
      c ← walk_back p (length (nodes g)) cycle_vertex;
      cycle_edges ← cycle_loop fuel p c c [];
      Returned (d, p, cycle_edges)
  end.

(** The detection loop of [bellman_ford] in [protein_folding.py]. *)
Fixpoint relaxable_edges (d : dist) (l : list fedge)
  : outcome (list (node * node)) :=
  match l with
  | [] => Returned []
  | (u, v, w) :: r =>
      du ← getitem d u;
      dv ← getitem d v;
      rest ← relaxable_edges d r;
      Returned (if (du + w <? dv)%float then (u, v) :: rest else rest)
  end.

(** [bellman_ford] of [protein_folding.py]. *)
Definition script_bellman_ford (g : fgraph) (source : node)
  : outcome (dist * pred * list (node * node)) :=
  '(d, p) ← relaxation g source;
  negative_cycle ← relaxable_edges d (edges g);
  Returned (d, p, negative_cycle).

(** The exact value of a finite float, for stating what a graph with float
    weights contains; 0 for the values that are no numbers. *)
Definition exact (x : float) : Q :=
  match Prim2SF x with
  | S754_finite s m e =>
      ((if s then -1 else 1) * inject_Z (Z.pos m) * (2 ^ e))%Q
  | _ => 0%Q
  end.

Definition exact_edges (es : list fedge) : list (@edge node Q) :=
  (fun e : fedge => (e.1.1, e.1.2, exact e.2)) <$> es.

(** The distance of a node, [inf] when it has no entry. *)
Definition fget (d : dist) (v : node) : float := default infinity (d !! v).

(** One edge, without the dictionary errors: the update happens when
    [distance[u] + w < distance[v]]. *)
Definition guard_relax_edge (st : dist * pred) (e : fedge) : dist * pred :=
  let '(d, p) := st in
  let '(u, v, w) := e in
  if (fget d u + w <? fget d v)%float
  then (<[v := (fget d u + w)%float]> d, <[v := Some u]> p)
  else (d, p).

Definition guard_relaxation (g : fgraph) (s : node) : dist * pred :=
  Nat.iter (length (nodes g) - 1)
    (fun st => foldl guard_relax_edge st (edges g)) (init_state g s).

(** One edge as the design document words it: the update happens when
    distance(u) is finite and distance(u) + w < distance(v). *)
Definition spec_relax_edge (st : dist * pred) (e : fedge) : dist * pred :=
  let '(d, p) := st in
  let '(u, v, w) := e in
  if is_finite (fget d u) && (fget d u + w <? fget d v)%float
  then (<[v := (fget d u + w)%float]> d, <[v := Some u]> p)
  else (d, p).

Definition spec_relaxation (g : fgraph) (s : node) : dist * pred :=
  Nat.iter (length (nodes g) - 1)
    (fun st => foldl spec_relax_edge st (edges g)) (init_state g s).
End code.

(** ** Facts about the IEEE comparison and sum *)

Lemma SFltb_trans (a b c : spec_float) :
  SFltb a b = true -> SFltb b c = true -> SFltb a c = true.
Proof.
  unfold SFltb, SFcompare.
  destruct a as [[]|[]| |[] ma ea], b as [[]|[]| |[] mb eb],
    c as [[]|[]| |[] mc ec]; try done;
    change (Pos.compare_cont Eq) with Pos.compare;
    destruct (Z.compare_spec ea eb), (Z.compare_spec eb ec),
      (Z.compare_spec ea ec); try done; try lia;
    destruct (Pos.compare_spec ma mb), (Pos.compare_spec mb mc),
      (Pos.compare_spec ma mc); simpl; try done; try lia.
Qed.

Lemma ltb_trans (x y z : float) :
  (x <? y)%float = true -> (y <? z)%float = true -> (x <? z)%float = true.
Proof. rewrite !ltb_spec. apply SFltb_trans. Qed.

Lemma ltb_irrefl (x : float) : (x <? x)%float = false.
Proof.
  rewrite ltb_spec. unfold SFltb, SFcompare.
  destruct (Prim2SF x) as [[]|[]| |[] m e]; try done;
    rewrite Z.compare_refl; change (Pos.compare_cont Eq) with Pos.compare;
    by rewrite Pos.compare_refl.
Qed.

(** [inf + w < x] is false for every [w] and [x]: [inf + w] is [inf], or
    NaN when [w] is [-inf]. *)
Lemma add_inf_ltb (w x : float) : (infinity + w <? x)%float = false.
Proof.
  rewrite ltb_spec, add_spec.
  change (Prim2SF infinity) with (S754_infinity false).
  unfold SF64add, SFadd, SFltb, SFcompare.
  destruct (Prim2SF w) as [[]|[]| |[] m e], (Prim2SF x) as [[]|[]| |[] m' e']; done.
Qed.

(** ** The relaxation on floats *)

Section facts.
Context {node : Type} `{Countable node}.
Implicit Types (g : @DiGraph node float) (u v x s : node) (w : float)
  (es : list (@edge node float))
  (d : gmap node float) (p : gmap node (option node)).

Lemma frelax_edge_eq d p u v w du dv :
  d !! u = Some du -> d !! v = Some dv ->
  relax_edge (d, p) (u, v, w) =
  Returned (if (du + w <? dv)%float
            then (<[v := (du + w)%float]> d, <[v := Some u]> p)
            else (d, p)).
Proof.
  intros Hu Hv. unfold relax_edge, getitem. rewrite Hu. simpl. rewrite Hv. simpl.
  by destruct (du + w <? dv)%float.
Qed.

Lemma fget_lookup d v a : d !! v = Some a -> fget d v = a.
Proof. unfold fget. by intros ->. Qed.

(** What holds of the two dictionaries throughout the relaxation from [s]:
    every node has its two entries, the predecessor dictionary has no other
    key, and the entry of the source is either untouched or below 0. *)
Record finv g s d p : Prop := {
  finv_dom : forall v, v ∈ nodes g -> is_Some (d !! v) /\ is_Some (p !! v);
  finv_keys : forall v, is_Some (p !! v) -> v ∈ nodes g;
  finv_source :
    (d !! s = Some 0%float /\ (p !! s = None \/ p !! s = Some None)) \/
    (exists a u, d !! s = Some a /\ (a <? 0)%float = true /\
                 p !! s = Some (Some u));
  finv_pred : forall v u, p !! v = Some (Some u) ->
    exists w, (u, v, w) ∈ edges g
}.

Definition finv_state g s (st : gmap node float * gmap node (option node)) : Prop :=
  finv g s st.1 st.2.

Lemma finv_init g s : finv_state g s (init_state g s).
Proof.
  unfold finv_state, init_state. simpl. split.
  - intros v Hv. rewrite dict_const_lookup, decide_True by done. split; [|eauto].
    destruct (decide (v = s)) as [->|N].
    + rewrite lookup_insert_eq. eauto.
    + rewrite lookup_insert_ne by congruence.
      rewrite dict_const_lookup, decide_True by done. eauto.
  - intros v [? E]. rewrite dict_const_lookup in E.
    destruct (decide (v ∈ nodes g)); [done|discriminate].
  - left. rewrite lookup_insert_eq. split; [done|].
    rewrite dict_const_lookup. destruct (decide (s ∈ nodes g)); auto.
  - intros v u E. rewrite dict_const_lookup in E.
    destruct (decide (v ∈ nodes g)); discriminate.
Qed.

Lemma finv_relax_edge g s d p u v w :
  wf_graph g -> finv g s d p -> (u, v, w) ∈ edges g ->
  relax_edge (d, p) (u, v, w) = Returned (guard_relax_edge (d, p) (u, v, w)) /\
  finv_state g s (guard_relax_edge (d, p) (u, v, w)).
Proof.
  intros Hwf [Hdom Hkeys Hsrc Hpred] He.
  destruct (edge_endpoints _ _ _ _ Hwf He) as [Hun Hvn].
  destruct (Hdom u Hun) as [[du Hu] _]. destruct (Hdom v Hvn) as [[dv Hv] _].
  rewrite (frelax_edge_eq _ _ _ _ _ _ _ Hu Hv). unfold guard_relax_edge.
  rewrite (fget_lookup _ _ _ Hu), (fget_lookup _ _ _ Hv).
  destruct (du + w <? dv)%float eqn:Hlt; (split; [done|]); [|by split].
  unfold finv_state. simpl. split.
  - intros x Hx. destruct (Hdom x Hx) as [Hd Hp].
    destruct (decide (x = v)) as [->|N].
    + rewrite !lookup_insert_eq. eauto.
    + by rewrite !lookup_insert_ne by congruence.
  - intros x Hx. destruct (decide (x = v)) as [->|N]; [done|].
    rewrite lookup_insert_ne in Hx by congruence. auto.
  - destruct (decide (s = v)) as [->|N].
    + right. exists (du + w)%float, u. rewrite !lookup_insert_eq.
      split_and!; [done| |done].
      destruct Hsrc as [[E _]|(a & u' & E & Ha & _)].
      * assert (dv = 0%float) as -> by congruence. done.
      * assert (dv = a) as -> by congruence. by apply (ltb_trans _ a).
    + by rewrite !lookup_insert_ne by congruence.
  - intros x a E. destruct (decide (x = v)) as [->|N].
    + rewrite lookup_insert_eq in E. injection E as <-. by exists w.
    + rewrite lookup_insert_ne in E by congruence. eauto.
Qed.

Lemma finv_relax_pass g s st :
  wf_graph g -> finv_state g s st ->
  relax_pass g st = Returned (foldl guard_relax_edge st (edges g)) /\
  finv_state g s (foldl guard_relax_edge st (edges g)).
Proof.
  intros Hwf. unfold relax_pass.
  assert (Hl : forall e, e ∈ edges g -> e ∈ edges g) by done.
  revert Hl st. generalize (edges g) at 1 3 4 5.
  induction l as [|[[u v] w] r IH]; intros Hl [d p] Hst; [done|].
  cbn [for_each foldl].
  destruct (finv_relax_edge g s d p u v w Hwf Hst) as [E Hst']; [apply Hl; left|].
  rewrite E. simpl. apply IH; [|done]. intros e He. apply Hl. by right.
Qed.

Lemma finv_for_range g s k st :
  wf_graph g -> finv_state g s st ->
  for_range k (relax_pass g) st =
  Returned (Nat.iter k (fun st => foldl guard_relax_edge st (edges g)) st) /\
  finv_state g s (Nat.iter k (fun st => foldl guard_relax_edge st (edges g)) st).
Proof.
  intros Hwf. revert st. induction k as [|k IH]; intros st Hst; [done|].
  cbn [for_range]. destruct (finv_relax_pass g s st Hwf Hst) as [E Hst'].
  rewrite E, Nat.iter_succ_r. by apply IH.
Qed.

Lemma relaxation_finv g s :
  wf_graph g ->
  relaxation g s = Returned (guard_relaxation g s) /\
  finv_state g s (guard_relaxation g s).
Proof.
  intros Hwf. unfold relaxation, guard_relaxation.
  apply finv_for_range; [done|apply finv_init].
Qed.

(** The dictionaries that a returning call hands back are those of the
    relaxation. *)
Lemma bellman_ford_state g s fuel d p L :
  bellman_ford fuel g s = Returned (d, p, L) -> relaxation g s = Returned (d, p).
Proof.
  unfold bellman_ford. destruct (relaxation g s) as [[d0 p0]| |]; simpl;
    [|discriminate..].
  destruct (detect d0 (edges g)) as [[c|]| |]; simpl; [| |discriminate..].
  - destruct (walk_back _ _ _) as [c'| |]; simpl; [|discriminate..].
    destruct (cycle_loop _ _ _ _ _); simpl; [|discriminate..].
    by intros [= <- <- _].
  - by intros [= <- <- _].
Qed.
End facts.
End Float64.

(** ** Results on floats *)

Section float_results.
Context {node : Type} `{Countable node}.
Implicit Types (s : node) (es : list (@edge node float))
  (d : gmap node float) (p : gmap node (option node)).

(** C3 as worded, on floats: the relaxation is [|V| - 1] passes of the
    update guarded by "distance(u) is finite and
    distance(u) + w < distance(v)". *)
Definition finite_guard_claim es s : Prop :=
  Float64.relaxation (graph_of es) s =
  Returned (Float64.spec_relaxation (graph_of es) s).

(** C3, as the code has it.  The relaxation of [bellman_ford] is exactly
    [|V| - 1] full passes over all edges (none for an empty graph) and raises
    nothing; for an edge [(u, v, w)] the update of [distance[v]] and
    [predecessor[v]] happens exactly when
    [distance[u] + w < distance[v]].  There is no finiteness test: the
    comparison is false whenever [distance[u]] is [inf]. *)
Theorem float_relaxation_passes es s :
  Float64.relaxation (graph_of es) s =
  Returned (Float64.guard_relaxation (graph_of es) s) /\
  (forall d p u v w du dv, d !! u = Some du -> d !! v = Some dv ->
    ((du + w <? dv)%float = true ->
     Float64.relax_edge (d, p) (u, v, w) =
     Returned (<[v := (du + w)%float]> d, <[v := Some u]> p)) /\
    ((du + w <? dv)%float = false ->
     Float64.relax_edge (d, p) (u, v, w) = Returned (d, p))) /\
  (forall w a : float, (infinity + w <? a)%float = false).
Proof.
  split_and!.
  - apply Float64.relaxation_finv. apply wf_built.
  - intros d p u v w du dv Hu Hv.
    rewrite (Float64.frelax_edge_eq _ _ _ _ _ _ _ Hu Hv).
    split; by intros ->.
  - apply Float64.add_inf_ltb.
Qed.

(** C7, as the code has it.  [reconstruct_path] returns, for a backward
    walk from [end] that ends at a node without predecessor, the sequence of
    the walk when its first element is [start] and [None] otherwise, and it
    returns nothing else.  For the dictionaries that [bellman_ford] returns
    for a source [s]: when [s] is a node of the graph and [distance[s]] is
    still 0, [reconstruct_path(predecessor, s, s)] is [[s]]; when [s] is
    not a node of the graph, the call raises [KeyError]. *)
Theorem float_reconstruct_path_spec :
  (forall p start (e : node) path fuel,
     back_chain p path e -> (length path <= fuel)%nat ->
     reconstruct_path fuel p start (Some e) = Returned (path_answer start path) /\
     script_reconstruct_path fuel p start (Some e) = Returned (path_answer start path)) /\
  (forall p start (e : node) fuel r,
     reconstruct_path fuel p start (Some e) = Returned r ->
     exists path, back_chain p path e /\ r = path_answer start path) /\
  (forall es s fuel fuel' d p L,
     s ∈ nodes (graph_of es) ->
     Float64.bellman_ford fuel (graph_of es) s = Returned (d, p, L) ->
     d !! s = Some 0%float ->
     reconstruct_path (S fuel') p s (Some s) = Returned (Some [s])) /\
  (forall es s fuel fuel' d p L,
     s ∉ nodes (graph_of es) ->
     Float64.bellman_ford fuel (graph_of es) s = Returned (d, p, L) ->
     reconstruct_path (S fuel') p s (Some s) = Raised KeyError).
Proof.
  destruct (@reconstruct_path_spec node _ _) as (H1 & H2 & _).
  split_and!; [exact H1|exact H2| |].
  - intros es s fuel fuel' d p L Hs EL Hd.
    apply Float64.bellman_ford_state in EL.
    destruct (Float64.relaxation_finv (graph_of es) s (wf_built es)) as [E Hinv].
    rewrite E in EL. injection EL as EL.
    unfold Float64.finv_state in Hinv. rewrite EL in Hinv. simpl in Hinv.
    destruct (Float64.finv_source _ _ _ _ Hinv) as [[_ [Hp|Hp]]|(a & u & Ha & Hlt & _)].
    + destruct (Float64.finv_dom _ _ _ _ Hinv s Hs) as [_ [? Hp']]. congruence.
    + unfold reconstruct_path. cbn [path_loop]. unfold getitem. rewrite Hp. simpl.
      destruct fuel'; simpl; by rewrite decide_True.
    + assert (a = 0%float) as -> by congruence.
      by rewrite Float64.ltb_irrefl in Hlt.
  - intros es s fuel fuel' d p L Hs EL.
    apply Float64.bellman_ford_state in EL.
    destruct (Float64.relaxation_finv (graph_of es) s (wf_built es)) as [E Hinv].
    rewrite E in EL. injection EL as EL.
    unfold Float64.finv_state in Hinv. rewrite EL in Hinv. simpl in Hinv.
    destruct (p !! s) as [x|] eqn:Hp.
    + exfalso. apply Hs. apply (Float64.finv_keys _ _ _ _ Hinv). by rewrite Hp.
    + unfold reconstruct_path. cbn [path_loop]. unfold getitem. by rewrite Hp.
Qed.

(** C7 as worded: after a returning call for a graph in which no negative
    cycle can be reached from [s], [reconstruct_path(predecessor, s, s)]
    returns [[s]]. *)
Definition self_path_claim es s : Prop :=
  ~ negative_cycle_reachable (graph_of (Float64.exact_edges es)) s ->
  forall fuel d p L,
    Float64.bellman_ford fuel (graph_of es) s = Returned (d, p, L) ->
    exists fuel', reconstruct_path fuel' p s (Some s) = Returned (Some [s]).
End float_results.

(** ** The cycle extraction on floats *)

Section float_extraction.
Context {node : Type} `{Countable node}.
Implicit Types (g : @DiGraph node float) (s v : node)
  (es : list (@edge node float))
  (d : gmap node float) (p : gmap node (option node)).

Lemma float_detect_returns g s d p (l : list (@edge node float)) :
  wf_graph g -> Float64.finv g s d p -> (forall e, e ∈ l -> e ∈ edges g) ->
  exists r, Float64.detect d l = Returned r /\
            forall v, r = Some v -> v ∈ nodes g.
Proof.
  intros Hwf Hinv. induction l as [|[[u v] w] l IH]; intros Hl.
  - by exists None.
  - destruct (edge_endpoints g u v w Hwf) as [Hun Hvn]; [apply Hl; left|].
    destruct (Float64.finv_dom _ _ _ _ Hinv u Hun) as [[du Hu] _].
    destruct (Float64.finv_dom _ _ _ _ Hinv v Hvn) as [[dv Hv] _].
    cbn [Float64.detect]. unfold getitem. rewrite Hu. simpl. rewrite Hv. simpl.
    destruct (du + w <? dv)%float.
    + exists (Some v). split; [done|]. by intros ? [= <-].
    + apply IH. intros e He. apply Hl. by right.
Qed.

(** The cycle extraction of [ProteinGraph.bellman_ford], on floats.  The
    [while True] loop never runs forever: with room for [|V|] iterations
    the call returns or raises.  When the [|V|] steps backward from the
    anchor meet no [None], the call returns a non-empty cycle list.  Every
    non-empty list that is returned is, read from its last pair to its
    first, a closed walk of edges of the graph, each leading from
    [predecessor[v]] to [v]. *)
Theorem float_cycle_extraction es s fuel :
  (length (nodes (graph_of es)) <= fuel)%nat ->
  Float64.bellman_ford fuel (graph_of es) s <> OutOfFuel /\
  (forall d p v c,
     Float64.relaxation (graph_of es) s = Returned (d, p) ->
     Float64.detect d (edges (graph_of es)) = Returned (Some v) ->
     walk_back p (length (nodes (graph_of es))) (Some v) = Returned (Some c) ->
     exists L, L <> [] /\
       Float64.bellman_ford fuel (graph_of es) s = Returned (d, p, L)) /\
  (forall d p L,
     Float64.bellman_ford fuel (graph_of es) s = Returned (d, p, L) -> L <> [] ->
     exists c Wk, walk (graph_of es) c Wk c /\
       (fun e : @edge node float => (Some e.1.1, Some e.1.2)) <$> Wk = reverse L /\
       forall a b w, (a, b, w) ∈ Wk -> p !! b = Some (Some a)).
Proof.
  intros Hfuel. pose proof (wf_built es) as Hwf. fold (graph_of es) in Hwf.
  set (g := graph_of es) in *.
  destruct (Float64.relaxation_finv g s Hwf) as [E Hinv].
  destruct (Float64.guard_relaxation g s) as [d0 p0] eqn:Eg.
  unfold Float64.finv_state in Hinv. simpl in Hinv.
  assert (Hp : forall v u, p0 !! v = Some (Some u) -> u ∈ nodes g).
  { intros v u Hv. destruct (Float64.finv_pred _ _ _ _ Hinv v u Hv) as [w He].
    by destruct (edge_endpoints _ _ _ _ Hwf He). }
  destruct (float_detect_returns g s d0 p0 (edges g) Hwf Hinv) as (r & Er & Hr);
    [done|].
  assert (Hloop : forall v c, r = Some v ->
            walk_back p0 (length (nodes g)) (Some v) = Returned (Some c) ->
            exists L, cycle_loop fuel p0 (Some c) (Some c) [] = Returned L).
  { intros v c -> Ew. apply walk_back_iter in Ew.
    destruct (back_cycle g p0 v c Hp (Hr v eq_refl) Ew) as (m & Hm & Hc).
    apply (cycle_loop_returns p0 c m c [] fuel Hc). lia. }
  assert (Htrace : forall c L, cycle_loop fuel p0 (Some c) (Some c) [] = Returned L ->
            L <> [] /\ exists Wk, walk g c Wk c /\
              (fun e : @edge node float => (Some e.1.1, Some e.1.2)) <$> Wk = reverse L /\
              forall a b w, (a, b, w) ∈ Wk -> p0 !! b = Some (Some a)).
  { intros c L EL.
    destruct (cycle_loop_trace g p0 fuel c c [] L (Float64.finv_pred _ _ _ _ Hinv) EL)
      as (Wk & HW & Hwalk & Hpe & ->).
    simpl. split.
    - intros Hnil. apply (f_equal length) in Hnil.
      rewrite length_reverse, length_fmap in Hnil. by destruct Wk.
    - exists Wk. by rewrite reverse_involutive. }
  split_and!.
  - unfold Float64.bellman_ford. rewrite E. simpl. rewrite Er. simpl.
    destruct r as [v|]; [|done].
    destruct (walk_back p0 (length (nodes g)) (Some v)) as [[c|]| |] eqn:Ew; simpl.
    + destruct (Hloop v c eq_refl Ew) as [L ->]. done.
    + assert (Hn : (1 <= fuel)%nat).
      { pose proof (Hr v eq_refl) as Hv. destruct (nodes g); [|simpl in Hfuel; lia].
        by apply elem_of_nil in Hv. }
      destruct fuel; [lia|done].
    + done.
    + by apply walk_back_not_diverging in Ew.
  - intros d p v c Erel Edet Ew. rewrite E in Erel. injection Erel as <- <-.
    rewrite Er in Edet. injection Edet as ->.
    destruct (Hloop v c eq_refl Ew) as [L EL]. exists L.
    split; [by apply (Htrace c L EL)|].
    unfold Float64.bellman_ford. rewrite E. simpl. rewrite Er. simpl. rewrite Ew.
    simpl. by rewrite EL.
  - intros d p L EL HL. unfold Float64.bellman_ford in EL. rewrite E in EL.
    simpl in EL. rewrite Er in EL. simpl in EL.
    destruct r as [v|]; [|by injection EL as _ _ <-].
    destruct (walk_back p0 _ _) as [c| |]; simpl in EL; [|discriminate..].
    destruct (cycle_loop fuel p0 c c []) as [L0| |] eqn:EC; simpl in EL;
      [|discriminate..].
    injection EL as <- <- <-.
    destruct c as [c|]; [|by apply cycle_loop_None in EC].
    destruct (Htrace c L0 EC) as [_ (Wk & ? & ? & ?)]. by exists c, Wk.
Qed.
End float_extraction.

(** ** Inputs on which rounding, absorption and overflow show *)

(** The literals are Python's: a decimal literal denotes the nearest
    binary64 number. *)
#[warnings="-inexact-float"]
Definition zero_cycle : list (@edge string float) :=
  [("B", "A", -0.7); ("A", "B", 0.7); ("S", "A", 0.1)]%float.

#[warnings="-inexact-float"]
Definition zero_cycle_2 : list (@edge string float) :=
  [("s", "A", 0.1); ("A", "B", 0.7); ("A", "s", -0.1); ("B", "A", -0.7)]%float.

Definition absorbed : list (@edge string float) :=
  [("S", "A", 1e16); ("A", "A", -0.5)]%float.

#[warnings="-inexact-float"]
Definition overflow : list (@edge string float) :=
  [("S", "A", -1e308); ("A", "B", -1e308); ("B", "C", 1.0)]%float.

Definition one_edge : list (@edge string float) := [("A", "B", 1.0)]%float.

Definition edges_example_f : list (@edge string float) :=
  [("U", "A", -2.0); ("A", "B", -1.5); ("B", "C", -3.0); ("C", "F", -2.0);
   ("B", "D", 1.0); ("D", "E", -4.0); ("E", "F", 2.0)]%float.

Ltac exact_acyclic :=
  eapply no_negative_cycle_check; [apply wf_built| |]; vm_compute; reflexivity.

(** C1 at failing inputs.  In [zero_cycle] the only cycle, A -> B -> A,
    weighs exactly 0.  After the two passes [distance["B"] + -0.7] is
    0.09999999999999998, which is below [distance["A"] = 0.1]: the
    detection fires, and the walk backward from "A" meets [None], so that
    [ProteinGraph.bellman_ford] raises [KeyError]; the script's
    [bellman_ford] reports the edge B -> A.  In [zero_cycle_2] every cycle
    weighs exactly 0 and the call returns an empty cycle list, but with a
    distance of the source below 0. *)
Theorem rounding_breaks_acyclic (fuel : nat) :
  ~ negative_cycle_reachable (graph_of (Float64.exact_edges zero_cycle)) "S" /\
  Float64.bellman_ford fuel (graph_of zero_cycle) "S" = Raised KeyError /\
  (exists d p, Float64.script_bellman_ford (graph_of zero_cycle) "S" =
               Returned (d, p, [("B", "A")])) /\
  ~ negative_cycle_reachable (graph_of (Float64.exact_edges zero_cycle_2)) "s" /\
  (exists d p a, Float64.bellman_ford fuel (graph_of zero_cycle_2) "s" =
                 Returned (d, p, []) /\
                 d !! "s" = Some a /\ (a <? 0)%float = true).
Proof.
  split_and!.
  - exact_acyclic.
  - vm_compute. reflexivity.
  - eexists _, _. vm_compute. reflexivity.
  - exact_acyclic.
  - eexists _, _, _. split_and!; vm_compute; reflexivity.
Qed.

(** C2 at a failing input.  In [absorbed] the loop A -> A of weight -0.5
    is a negative cycle that can be reached from "S", but
    [1e16 + -0.5] is [1e16]: no edge can be relaxed after the pass and both
    [bellman_ford] functions return an empty list. *)
Theorem absorption_hides_cycle (fuel : nat) :
  negative_cycle_reachable (graph_of (Float64.exact_edges absorbed)) "S" /\
  (1e16 + -0.5 <? 1e16)%float = false /\
  exists d p,
    Float64.bellman_ford fuel (graph_of absorbed) "S" = Returned (d, p, []) /\
    Float64.script_bellman_ford (graph_of absorbed) "S" = Returned (d, p, []).
Proof.
  split_and!.
  - exists "A", [("S", "A", Float64.exact 1e16)],
      [("A", "A", Float64.exact (-0.5))].
    split_and!.
    + constructor; [edge_in|constructor].
    + constructor; [edge_in|constructor].
    + vm_compute. reflexivity.
  - reflexivity.
  - eexists _, _. split; vm_compute; reflexivity.
Qed.

(** C3 fails on floats: in [overflow] the distance of "B" overflows to
    [-inf], which is not finite, and the code still lowers
    [distance["C"]] from it. *)
Lemma finite_guard_counterexample : ~ finite_guard_claim overflow "S".
Proof.
  unfold finite_guard_claim. intros E.
  assert (Ec : forall st st' : gmap string float * gmap string (option string),
            Returned st = Returned st' ->
            (default 0 (st.1 !! "C") <? 0)%float =
            (default 0 (st'.1 !! "C") <? 0)%float).
  { by intros st st' [= ->]. }
  apply Ec in E. vm_compute in E. discriminate E.
Qed.

Lemma float_relaxation_passes_witness :
  exists d : gmap string float,
    d !! "A" = Some 0%float /\ d !! "B" = Some infinity /\
    Float64.relax_edge (d, ∅) ("A", "B", 1%float) =
    Returned (<["B" := (0 + 1)%float]> d, <["B" := Some "A"]> ∅) /\
    Float64.relax_edge (d, ∅) ("B", "A", 1%float) = Returned (d, ∅).
Proof.
  destruct (float_relaxation_passes (@nil (@edge string float)) "A") as (_ & Hedge & _).
  exists (<["A" := 0%float]> (<["B" := infinity]> ∅)).
  assert (HA : (<["A" := 0%float]> (<["B" := infinity]> ∅) : gmap string float)
               !! "A" = Some 0%float) by (vm_compute; reflexivity).
  assert (HB : (<["A" := 0%float]> (<["B" := infinity]> ∅) : gmap string float)
               !! "B" = Some infinity) by (vm_compute; reflexivity).
  split_and!; [exact HA|exact HB| |].
  - apply (proj1 (Hedge _ ∅ "A" "B" 1%float _ _ HA HB)). reflexivity.
  - apply (proj2 (Hedge _ ∅ "B" "A" 1%float _ _ HB HA)). reflexivity.
Defined.

Lemma path_loop_two_cycle (p : gmap string (option string)) (a b : string) :
  p !! a = Some (Some b) -> p !! b = Some (Some a) ->
  forall fuel acc, path_loop fuel p (Some a) acc = OutOfFuel /\
                   path_loop fuel p (Some b) acc = OutOfFuel.
Proof.
  intros Ha Hb. induction fuel as [|fuel IH]; intros acc; [done|].
  cbn [path_loop]. unfold getitem. rewrite Ha, Hb. simpl.
  split; apply IH.
Qed.

Lemma zero_cycle_2_run (fuel : nat) :
  exists d p, Float64.bellman_ford fuel (graph_of zero_cycle_2) "s" =
              Returned (d, p, []) /\
    p !! "s" = Some (Some "A") /\ p !! "A" = Some (Some "B") /\
    p !! "B" = Some (Some "A").
Proof. eexists _, _. split_and!; vm_compute; reflexivity. Qed.

(** C7 fails for a source that is no node: for the graph A -> B and "Z",
    [bellman_ford] returns and [reconstruct_path(predecessor, "Z", "Z")]
    raises [KeyError].  It also fails by rounding: in [zero_cycle_2] no
    cycle is negative, yet the predecessors returned for "s" are
    s <- A <- B <- A, and the backward walk from "s" never ends. *)
Lemma self_path_counterexample :
  ~ self_path_claim one_edge "Z" /\ ~ self_path_claim zero_cycle_2 "s".
Proof.
  split; intros Hc.
  - assert (Hno : ~ negative_cycle_reachable
                    (graph_of (Float64.exact_edges one_edge)) "Z") by exact_acyclic.
    destruct (Hc Hno 0%nat _ _ _ ltac:(vm_compute; reflexivity)) as [fuel' E].
    destruct fuel'; vm_compute in E; discriminate E.
  - assert (Hno : ~ negative_cycle_reachable
                    (graph_of (Float64.exact_edges zero_cycle_2)) "s") by exact_acyclic.
    destruct (zero_cycle_2_run 0) as (d & p & E & Hs & HA & HB).
    destruct (Hc Hno 0%nat d p [] E) as [fuel' E'].
    unfold reconstruct_path in E'. destruct fuel' as [|fuel']; [discriminate E'|].
    cbn [path_loop] in E'. unfold getitem in E'. rewrite Hs in E'. simpl in E'.
    by rewrite (proj1 (path_loop_two_cycle p "A" "B" HA HB fuel' ["s"])) in E'.
Qed.

Lemma float_reconstruct_path_spec_witness :
  reconstruct_path 1 (<["U" := None]> ∅) "U" (Some "U") =
  Returned (path_answer "U" ["U"]) /\
  (exists path, back_chain (<["U" := None]> ∅) path "U" /\
                Some ["U"] = path_answer "U" path) /\
  (exists d p L,
     Float64.bellman_ford 0 (graph_of edges_example_f) "U" = Returned (d, p, L) /\
     d !! "U" = Some 0%float /\
     reconstruct_path 1 p "U" (Some "U") = Returned (Some ["U"])) /\
  (exists d p L,
     Float64.bellman_ford 0 (graph_of one_edge) "Z" = Returned (d, p, L) /\
     reconstruct_path 1 p "Z" (Some "Z") = Raised KeyError).
Proof.
  destruct (@float_reconstruct_path_spec string _ _) as (H1 & H2 & H3 & H4).
  split_and!.
  - apply (H1 (<["U" := None]> ∅) "U" "U" ["U"] 1%nat); [|simpl; lia].
    constructor. reflexivity.
  - apply (H2 (<["U" := None]> ∅) "U" "U" 1%nat). reflexivity.
  - eexists _, _, _. split; [vm_compute; reflexivity|].
    split; [vm_compute; reflexivity|].
    eapply (H3 edges_example_f "U" 0%nat 0%nat);
      [|vm_compute; reflexivity|vm_compute; reflexivity].
    apply list_elem_of_In. vm_compute. left. reflexivity.
  - eexists _, _, _. split; [vm_compute; reflexivity|].
    eapply (H4 one_edge "Z" 0%nat 0%nat); [|vm_compute; reflexivity].
    vm_compute. intros Hin. apply list_elem_of_In in Hin.
    destruct Hin as [E|[E|[]]]; discriminate E.
Defined.

(** ** The script as shipped *)

(** The edge list of [protein_folding.py], with its back loop C -> A. *)
Definition script_edges_f : list (@edge string float) :=
  [("U", "A", -2.0); ("A", "B", -1.5); ("B", "C", -3.0); ("C", "F", -2.0);
   ("B", "D", 1.0); ("D", "E", -4.0); ("E", "F", 2.0); ("C", "A", -1.5)]%float.

(** The edge list of the first example of [protein.py]. *)
Definition neg_edges_example_f : list (@edge string float) :=
  [("U", "A", -2.0); ("A", "B", -1.5); ("B", "C", -3.0); ("C", "F", -2.0);
   ("B", "D", 1.0); ("D", "E", -4.0); ("E", "F", 2.0); ("C", "A", -2.5)]%float.

(** [protein_folding.py] runs [bellman_ford(G, "U")] and then, whatever
    the third result, [reconstruct_path(predecessor, "U", "F")]: with the
    predecessors F <- C <- B <- A <- C of its own graph the call does not
    come back. *)
Lemma reconstruct_path_diverges_witness :
  exists d p L,
    Float64.script_bellman_ford (graph_of script_edges_f) "U" = Returned (d, p, L) /\
    L <> [] /\
    script_reconstruct_path 1000 p "U" (Some "F") = OutOfFuel.
Proof.
  eexists _, _, _. split; [vm_compute; reflexivity|]. split; [done|].
  refine (proj2 (reconstruct_path_diverges _
            (fun x => x = "F" \/ x = "C" \/ x = "B" \/ x = "A") "U" "F" _ _ 1000%nat)).
  - intros x [-> | [-> | [-> | ->]]].
    + exists "C". split; [vm_compute; reflexivity|tauto].
    + exists "B". split; [vm_compute; reflexivity|tauto].
    + exists "A". split; [vm_compute; reflexivity|tauto].
    + exists "C". split; [vm_compute; reflexivity|tauto].
  - by left.
Defined.

Lemma float_cycle_extraction_witness :
  (length (nodes (graph_of neg_edges_example_f)) <= 7)%nat /\
  Float64.bellman_ford 7 (graph_of neg_edges_example_f) "U" <> OutOfFuel /\
  exists d p L, L <> [] /\
    Float64.bellman_ford 7 (graph_of neg_edges_example_f) "U" = Returned (d, p, L).
Proof.
  assert (Hlen : (length (nodes (graph_of neg_edges_example_f)) <= 7)%nat)
    by (vm_compute; lia).
  destruct (float_cycle_extraction neg_edges_example_f "U" 7 Hlen) as (Hno & Hret & _).
  split_and!; [exact Hlen|exact Hno|].
  eexists _, _. eapply Hret; vm_compute; reflexivity.
Defined.
